(** * Logstalgia: the trajectory engine of [RequestBall]

    A shallow embedding of [src/requestball.cpp]: path construction
    ([addPoint], the constructor), pre-bounce re-targeting ([changeDestX]),
    bounce projection ([project], [bounce]), the per-tick advance ([animate],
    [logic]) and the state queries ([isFinished], [getProgress], ...), then
    what the ball shows: the request detail under the mouse
    ([formatRequestDetail], [mouseOver]) and the response code
    ([drawResponseCode]).

    C++ [float] is IEEE-754 binary32.  It is modelled with the executable
    specification of floating-point arithmetic of the standard library
    ([SpecFloat], precision 24, maximal exponent 128, round to nearest even),
    so every definition below can be evaluated on concrete inputs, NaN and
    infinities included.  Every operation rounds its result to binary32 (no
    fused multiply-add, no intermediate extended precision). *)

From Stdlib Require Import ZArith List Bool Lia.
From Stdlib Require Import SpecFloat.
From Stdlib Require Ascii String.
Import ListNotations.

Set Implicit Arguments.

(** ** binary32 arithmetic *)

Module F32.

Definition prec : Z := 24.
Definition emax : Z := 128.

Definition float : Type := spec_float.

Definition add : float -> float -> float := SFadd prec emax.
Definition sub : float -> float -> float := SFsub prec emax.
Definition mul : float -> float -> float := SFmul prec emax.
Definition div : float -> float -> float := SFdiv prec emax.
Definition sqrt : float -> float := SFsqrt prec emax.
Definition neg : float -> float := SFopp.

(** The four C++ comparisons; each is false as soon as an operand is NaN. *)
Definition ltb : float -> float -> bool := SFltb.
Definition leb : float -> float -> bool := SFleb.
Definition gtb (a b : float) : bool := SFltb b a.
Definition geb (a b : float) : bool := SFleb b a.

(** Conversion [(float) n] of an [int]. *)
Definition of_Z (n : Z) : float := binary_normalize prec emax n 0 false.

Definition zero : float := S754_zero false.
Definition nan : float := S754_nan.
Definition one : float := Eval vm_compute in of_Z 1.
Definition five : float := Eval vm_compute in of_Z 5.
Definition half : float := Eval vm_compute in div (of_Z 1) (of_Z 2).

Definition is_nan (a : float) : bool :=
  match a with S754_nan => true | _ => false end.

Definition is_finite (a : float) : bool :=
  match a with S754_zero _ | S754_finite _ _ _ => true | _ => false end.

Definition valid (a : float) : bool := valid_binary prec emax a.

End F32.

Import F32.

Declare Scope f32_scope.
Delimit Scope f32_scope with f32.
Infix "+" := add : f32_scope.
Infix "-" := sub : f32_scope.
Infix "*" := mul : f32_scope.
Infix "/" := div : f32_scope.
Notation "- a" := (neg a) : f32_scope.
Infix "<?" := ltb : f32_scope.
Infix "<=?" := leb : f32_scope.
Infix ">?" := gtb : f32_scope.
Infix ">=?" := geb : f32_scope.

#[global] Arguments add : simpl never.
#[global] Arguments sub : simpl never.
#[global] Arguments mul : simpl never.
#[global] Arguments div : simpl never.
#[global] Arguments sqrt : simpl never.
#[global] Arguments neg : simpl never.
#[global] Arguments ltb : simpl never.
#[global] Arguments leb : simpl never.
#[global] Arguments gtb : simpl never.
#[global] Arguments geb : simpl never.
#[global] Arguments of_Z : simpl never.

(** ** [vec2] and the GLM functions the engine calls *)

Record vec2 : Type := mkvec2 { vx : float; vy : float }.

Definition vzero : vec2 := mkvec2 zero zero.

Definition vsub (a b : vec2) : vec2 :=
  mkvec2 (vx a - vx b)%f32 (vy a - vy b)%f32.

Definition vadd (a b : vec2) : vec2 :=
  mkvec2 (vx a + vx b)%f32 (vy a + vy b)%f32.

Definition vscale (a : vec2) (k : float) : vec2 :=
  mkvec2 (vx a * k)%f32 (vy a * k)%f32.

(** [glm::dot], [glm::length], [glm::inversesqrt] and [glm::normalize] as
    the GLM library implements them on scalars: [length v] is
    [sqrt (dot v v)] and [normalize v] is [v * inversesqrt (dot v v)]. *)
Definition dot (a b : vec2) : float := (vx a * vx b + vy a * vy b)%f32.

Definition length (v : vec2) : float := sqrt (dot v v).

Definition inversesqrt (a : float) : float := (one / sqrt a)%f32.

Definition normalize (v : vec2) : vec2 := vscale v (inversesqrt (dot v v)).

(** ** What the engine reads from its surroundings *)

(** [display.width], [display.height] (two [int]s) and
    [settings.pitch_speed]. *)
Record Env : Type := mkEnv {
  display_width : Z;
  display_height : Z;
  pitch_speed : float
}.

(** The two fields of [LogEntry] that the constructor reads.
    [response_size] is wider than an [int]. *)
Record LogEntry : Type := mkLogEntry {
  response_size : Z;
  successful : bool
}.

(** Conversion of a wider integer to [unsigned int] and to [int]: the
    value modulo 2^32, in the range of the type. *)
Definition uint32 (z : Z) : Z := (z mod 4294967296)%Z.

Definition int32 (z : Z) : Z :=
  ((z + 2147483648) mod 4294967296 - 2147483648)%Z.

(** ** The state of a [RequestBall] *)

Record RequestBall : Type := mkBall {
  le : LogEntry;
  pos : vec2;
  dest : vec2;
  dir : vec2;
  size : float;
  offset : vec2;
  has_bounced : bool;
  no_bounce : bool;
  distance_travelled : float;
  total_distance : float;
  points : list vec2;
  line_lengths : list float
}.

(** [points.back()] and [points[0]]; both are only evaluated on a non-empty
    vector (see [path_ok] below), the default is never returned. *)
Definition back (l : list vec2) : vec2 := last l vzero.
Definition front (l : list vec2) : vec2 := hd vzero l.

(** [RequestBall::addPoint] *)
Definition addPoint (p : vec2) (b : RequestBall) : RequestBall :=
  let line_length := length (vsub (back (points b)) p) in
  mkBall (le b) (pos b) (dest b) (dir b) (size b) (offset b)
         (has_bounced b) (no_bounce b)
         (distance_travelled b)
         (total_distance b + line_length)%f32
         (points b ++ [p])
         (line_lengths b ++ [line_length]).

Section Engine.

(** The [log] of the C library, applied to a [float]. *)
Variable logf : float -> float.

Variable env : Env.

(** [RequestBall::RequestBall]; [int bytes = le->response_size] narrows
    the response size to an [int] before it is converted to [float]. *)
Definition newRequestBall (e : LogEntry) (p d : vec2) : RequestBall :=
  let dir0 := normalize (vsub d p) in
  let bytes := int32 (response_size e) in
  let size0 := (logf (of_Z bytes) + one)%f32 in
  let size1 := if (size0 <? five)%f32 then five else size0 in
  let b0 := mkBall e p d dir0 size1 vzero
                   false (negb (successful e))
                   zero zero [p] [] in
  let b1 := addPoint d b0 in
  let halfsize := (size1 * half)%f32 in
  mkBall (le b1) (pos b1) (dest b1) (dir b1) (size b1)
         (mkvec2 halfsize halfsize)
         (has_bounced b1) (no_bounce b1)
         (distance_travelled b1) (total_distance b1)
         (points b1) (line_lengths b1).

(** The pieces of [project], named so that statements can refer to them.
    [heading] is [dir] after lines 87-92, [far_target_x] is [target.x],
    [exit_y] is the first value of [y], the straight extrapolation to the
    far target, and [reflects] is the test of line 108. *)
Definition heading (b : RequestBall) : vec2 :=
  if no_bounce b then dir b else mkvec2 (- vx (dir b))%f32 (vy (dir b)).

Definition far_target_x (b : RequestBall) : float :=
  if no_bounce b then of_Z (display_width env) else of_Z 0.

Definition exit_y (b : RequestBall) : float :=
  let t := (vy (heading b) / vx (heading b))%f32 in
  let a := (far_target_x b - vx (pos b))%f32 in
  (vy (pos b) + t * a)%f32.

Definition lower_bound (b : RequestBall) : float := vy (offset b).

Definition upper_bound (b : RequestBall) : float :=
  (of_Z (display_height env) - vy (offset b))%f32.

Definition reflects (b : RequestBall) : bool :=
  (exit_y b <? lower_bound b)%f32 || (exit_y b >? upper_bound b)%f32.

(** [RequestBall::project] *)
Definition project (b : RequestBall) : RequestBall :=
  let p := pos b in
  let b0 := mkBall (le b) p (dest b) (heading b) (size b) (offset b)
                   (has_bounced b) (no_bounce b)
                   zero zero [p] [] in
  let t := (vy (heading b) / vx (heading b))%f32 in
  let y := exit_y b in
  if reflects b then
    let intersect_y :=
      if (y <=? lower_bound b)%f32 then lower_bound b else upper_bound b in
    let o := (intersect_y - vy p)%f32 in
    let x := (vx p + o / t)%f32 in
    let intersect := mkvec2 x intersect_y in
    let b1 := addPoint intersect b0 in
    let bounce_dir := mkvec2 (vx (heading b)) (- vy (heading b))%f32 in
    let t' := (vy bounce_dir / vx bounce_dir)%f32 in
    let a' := (t' * (far_target_x b - vx intersect))%f32 in
    let y' := (vy intersect + a')%f32 in
    addPoint (mkvec2 (far_target_x b) y') b1
  else
    addPoint (mkvec2 (far_target_x b) y) b0.

Definition set_has_bounced (v : bool) (b : RequestBall) : RequestBall :=
  mkBall (le b) (pos b) (dest b) (dir b) (size b) (offset b)
         v (no_bounce b)
         (distance_travelled b) (total_distance b)
         (points b) (line_lengths b).

(** [RequestBall::bounce] *)
Definition bounce (b : RequestBall) : RequestBall :=
  if has_bounced b then b else set_has_bounced true (project b).

(** [RequestBall::changeDestX] *)
Definition changeDestX (dest_x : float) (b : RequestBall) : RequestBall :=
  if has_bounced b then b
  else if (dest_x <=? vx (pos b))%f32 then bounce b
  else
    let t := (vy (dir b) / vx (dir b))%f32 in
    let start := front (points b) in
    let a := (t * (dest_x - vx start))%f32 in
    let y := (vy start + a)%f32 in
    let d := mkvec2 dest_x y in
    addPoint d
      (mkBall (le b) (pos b) d (dir b) (size b) (offset b)
              (has_bounced b) (no_bounce b)
              (distance_travelled b) zero [start] []).

(** [RequestBall::isFinished] *)
Definition isFinished (b : RequestBall) : bool :=
  has_bounced b && (distance_travelled b >=? total_distance b)%f32.

(** [RequestBall::arrivalTime] *)
Definition arrivalTime (b : RequestBall) : float :=
  ((total_distance b - distance_travelled b)
   / (pitch_speed env * of_Z (display_width env)))%f32.

(** [RequestBall::getProgress] *)
Definition getProgress (b : RequestBall) : float :=
  (distance_travelled b / total_distance b)%f32.

(** [RequestBall::getFinishPos] *)
Definition getFinishPos (b : RequestBall) : vec2 := back (points b).

(** [RequestBall::hasBounced] *)
Definition hasBounced (b : RequestBall) : bool := has_bounced b.

(** The [while] loop of [animate]: [pointno] and [len] advance while
    [pointno < nolines && len + line_lengths[pointno] < distance_travelled].
    Each iteration increments [pointno], so [nolines] iterations are
    enough; [fuel] counts the iterations still allowed. *)
Fixpoint walk (lens : list float) (nolines : nat) (dist : float)
         (fuel pointno : nat) (len : float) : nat * float :=
  match fuel with
  | O => (pointno, len)
  | S fuel' =>
      if (pointno <? nolines)%nat
         && (len + nth pointno lens zero <? dist)%f32
      then walk lens nolines dist fuel' (S pointno)
                (len + nth pointno lens zero)%f32
      else (pointno, len)
  end.

Definition set_distance_travelled (v : float) (b : RequestBall)
  : RequestBall :=
  mkBall (le b) (pos b) (dest b) (dir b) (size b) (offset b)
         (has_bounced b) (no_bounce b)
         v (total_distance b)
         (points b) (line_lengths b).

Definition set_pos (v : vec2) (b : RequestBall) : RequestBall :=
  mkBall (le b) v (dest b) (dir b) (size b) (offset b)
         (has_bounced b) (no_bounce b)
         (distance_travelled b) (total_distance b)
         (points b) (line_lengths b).

(** The distance added by one tick. *)
Definition tick_distance (dt : float) : float :=
  (dt * pitch_speed env * of_Z (display_width env))%f32.

(** [RequestBall::animate] *)
Definition animate (dt : float) (b : RequestBall) : RequestBall :=
  let b1 := set_distance_travelled
              (distance_travelled b + tick_distance dt)%f32 b in
  if (distance_travelled b1 >=? total_distance b1)%f32 then
    if negb (has_bounced b1) then bounce b1 else b1
  else
    let nolines := (List.length (points b1) - 1)%nat in
    let '(pointno, len) :=
      walk (line_lengths b1) nolines (distance_travelled b1)
           nolines 0%nat zero in
    if (nolines <=? pointno)%nat then
      if negb (has_bounced b1) then bounce b1 else b1
    else
      let from := nth pointno (points b1) vzero in
      let to := nth (S pointno) (points b1) vzero in
      let linepos :=
        ((distance_travelled b1 - len)
         / nth pointno (line_lengths b1) zero)%f32 in
      set_pos (vadd from (vscale (vsub to from) linepos)) b1.

(** [RequestBall::logic] *)
Definition logic (dt : float) (b : RequestBall) : RequestBall * bool :=
  let old_x := vx (pos b) in
  let b' := animate dt b in
  (b', (old_x <? zero)%f32 && (vx (pos b') >=? zero)%f32).

(** *** Lifetimes

    What a consumer can do with a ball once it is constructed: re-target
    it, ask for the bounce, advance it by one tick.  [project] and
    [addPoint] are only reached through these. *)
Inductive op : Type :=
| OpChangeDestX (dest_x : float)
| OpBounce
| OpAnimate (dt : float).

Definition step (o : op) (b : RequestBall) : RequestBall :=
  match o with
  | OpChangeDestX dest_x => changeDestX dest_x b
  | OpBounce => bounce b
  | OpAnimate dt => animate dt b
  end.

(** The states a ball goes through under a sequence of operations. *)
Fixpoint trace (ops : list op) (b : RequestBall) : list RequestBall :=
  b :: match ops with
       | [] => []
       | o :: rest => trace rest (step o b)
       end.

(** [lifetime e p d b]: [b] is a state of the ball constructed by
    [RequestBall(e, colour, p, d)]. *)
Inductive lifetime (e : LogEntry) (p d : vec2) : RequestBall -> Prop :=
| lifetime_new : lifetime e p d (newRequestBall e p d)
| lifetime_step o b : lifetime e p d b -> lifetime e p d (step o b).

End Engine.

(** Number of changes of value along a sequence of booleans. *)
Fixpoint flips (l : list bool) : nat :=
  match l with
  | a :: (c :: _) as rest => ((if Bool.eqb a c then 0 else 1) + flips rest)%nat
  | _ => 0%nat
  end.

(** Number of binary digits of a mantissa. *)
Definition digits (m : positive) : Z := Zpos (digits2_pos m).

(** ** Rounding, in integer arithmetic

    The notions used to follow [binary_round_aux] of the floating-point
    specification: [shrn] iterates the one-bit right shift, [rkey] orders
    mantissas with their round and sticky bits, [rne] is the mantissa
    rounded to nearest even, [rounded] the mantissa and exponent left by
    the two rounding stages and [fit] the float they denote. *)

Local Open Scope Z_scope.

Definition shrn (n : nat) (r : shr_record) : shr_record := Nat.iter n shr_1 r.

Definition rkey (r : shr_record) : Z :=
  4 * shr_m r + (if shr_r r then 2 else 0) + (if shr_s r then 1 else 0).

Definition rne (r : shr_record) : Z :=
  round_nearest_even (shr_m r) (loc_of_shr_record r).

(** The mantissa and exponent left by the two rounding stages. *)
Definition rounded (m e : Z) (l : location) : Z * Z :=
  let E := fexp prec emax (Zdigits2 m + e) in
  let m2 := rne (shrn (Z.to_nat (E - e)) (shr_record_of_loc m l)) in
  let n2 := fexp prec emax (Zdigits2 m2 + E) - E in
  (m2 / 2 ^ n2, E + n2).

Definition fit (s : bool) (p : Z * Z) : float :=
  match fst p with
  | Z0 => S754_zero s
  | Zpos q => if snd p <=? emax - prec then S754_finite s q (snd p)
              else S754_infinity s
  | Zneg _ => S754_nan
  end.

(** What the two stages guarantee, with [E] the exponent chosen by the
    first stage: the result lies at [E] or, after a carry, at [E + 1] with
    the least normal mantissa; it is canonical. *)
Record rounded_spec (m e : Z) (l : location) : Prop := mkRoundedSpec {
  rs_low : m / 2 ^ (fexp prec emax (Zdigits2 m + e) - e) <=
           rne (shrn (Z.to_nat (fexp prec emax (Zdigits2 m + e) - e))
                     (shr_record_of_loc m l));
  rs_exp : fexp prec emax (Zdigits2 m + e) <= snd (rounded m e l)
           <= fexp prec emax (Zdigits2 m + e) + 1;
  rs_same : snd (rounded m e l) = fexp prec emax (Zdigits2 m + e) ->
            fst (rounded m e l)
            = rne (shrn (Z.to_nat (fexp prec emax (Zdigits2 m + e) - e))
                        (shr_record_of_loc m l));
  rs_carry : snd (rounded m e l) = fexp prec emax (Zdigits2 m + e) + 1 ->
             fst (rounded m e l) = 2 ^ 23;
  rs_normal : -149 < fexp prec emax (Zdigits2 m + e) ->
              2 ^ 23 <= fst (rounded m e l);
  rs_nonneg : 0 <= fst (rounded m e l);
  rs_pos : -149 < Zdigits2 m + e -> 0 < fst (rounded m e l);
  rs_canonical : 0 < fst (rounded m e l) ->
                 fexp prec emax (Zdigits2 (fst (rounded m e l))
                                 + snd (rounded m e l))
                 = snd (rounded m e l);
  rs_stage2 : snd (rounded m e l) =
              fexp prec emax
                (Zdigits2 (rne (shrn (Z.to_nat (fexp prec emax (Zdigits2 m + e) - e))
                                     (shr_record_of_loc m l)))
                 + fexp prec emax (Zdigits2 m + e))
}.

(** The quotient [N / D] with the location of [N / D] between two
    consecutive integers, as [SFdiv_core_binary] computes it. *)
Definition qrec (N D : Z) : shr_record :=
  shr_record_of_loc (N / D) (new_location D (N mod D)).

(** The key of a located quotient, in terms of quotient and remainder. *)
Definition qcode (D r : Z) : Z :=
  if r =? 0 then 0
  else match 2 * r ?= D with Lt => 1 | Eq => 2 | Gt => 3 end.

Local Close Scope Z_scope.

(** [0 <= a]; NaN is not, both zeros are. *)
Definition nonneg (a : float) : bool := (zero <=? a)%f32.

(** ** The path invariant

    [segments] and [total] follow the specification's words: one segment
    length per pair of consecutive waypoints, the Euclidean distance
    |w(i+1) - w(i)|, and their sum, accumulated from 0 in path order. *)
Fixpoint segments (l : list vec2) : list float :=
  match l with
  | p :: (q :: _) as rest => length (vsub q p) :: segments rest
  | _ => []
  end.

Definition total (lens : list float) : float := fold_left add lens zero.

Record path_invariant (b : RequestBall) : Prop := mkPathInvariant {
  inv_count : List.length (points b) = S (List.length (line_lengths b));
  inv_segments : line_lengths b = segments (points b);
  inv_nth : forall i, (i < List.length (line_lengths b))%nat ->
            nth i (line_lengths b) zero
            = length (vsub (nth (S i) (points b) vzero)
                           (nth i (points b) vzero));
  inv_total : total_distance b = total (line_lengths b)
}.

(** The part of the invariant that is preserved step by step. *)
Definition path_ok (b : RequestBall) : Prop :=
  points b <> [] /\
  line_lengths b = segments (points b) /\
  total_distance b = total (line_lengths b).

(** ** Well-formed inputs of a tick

    [valid] holds of the triples that denote a binary32 value.  A usable
    environment has a positive [int] width and a non-negative finite
    speed; a usable time step is non-negative and finite. *)
Definition usable_env (env : Env) : bool :=
  (0 <? display_width env)%Z && (display_width env <=? 2147483647)%Z
  && valid (pitch_speed env) && nonneg (pitch_speed env)
  && is_finite (pitch_speed env).

Definition usable_dt (dt : float) : bool :=
  valid dt && nonneg dt && is_finite dt.

(** A total distance by which progress can be measured: positive and
    finite. *)
Definition measurable (t : float) : bool :=
  valid t && (zero <? t)%f32 && is_finite t.

(** ** Concrete scenarios

    The scenarios below are evaluated inside the kernel.  All of them use a
    log entry whose byte count is 1 as an [int]; libm gives
    [log(1.0f) = +0.0f], which is the only value of [logf] they need. *)

Definition logf_one : float -> float := fun _ => zero.

(** An 800x600 display and the default pitch speed [0.15f]. *)
Definition scene_env : Env := mkEnv 800 600 (of_Z 15 / of_Z 100)%f32.

Definition pt (a b : Z) : vec2 := mkvec2 (of_Z a) (of_Z b).

Definition one_byte (ok : bool) : LogEntry := mkLogEntry 1 ok.

(** A steep ball: from (700,300) towards (750,590). *)
Definition steep_ball : RequestBall :=
  newRequestBall logf_one (one_byte true) (pt 700 300) (pt 750 590).

(** The horizontal ball of the spec's first scenario. *)
Definition flat_ball : RequestBall :=
  newRequestBall logf_one (one_byte true) (pt 0 300) (pt 400 300).

(** A failed request on the same line. *)
Definition failed_ball : RequestBall :=
  newRequestBall logf_one (one_byte false) (pt 0 300) (pt 400 300).

(** A ball whose origin is its destination. *)
Definition still_ball : RequestBall :=
  newRequestBall logf_one (one_byte true) (pt 5 7) (pt 5 7).

(** A quarter of a second, and the horizontal ball after such a tick. *)
Definition quarter : float := Eval vm_compute in (of_Z 1 / of_Z 4)%f32.

Definition flat_ball_moving : RequestBall :=
  animate scene_env quarter flat_ball.

(** The same ball after a long tick (five seconds), which makes it bounce,
    and after a second such tick, which finishes it. *)
Definition flat_ball_bounced : RequestBall :=
  animate scene_env five flat_ball_moving.

Definition flat_ball_finished : RequestBall :=
  animate scene_env five flat_ball_bounced.

(** ** Properties as the specification words them *)

Section Stated.

Variable env : Env.

(** [y] lies in [[half_extent.y, display_height - half_extent.y]]. *)
Definition within_bounds (b : RequestBall) (y : float) : bool :=
  (lower_bound b <=? y)%f32 && (y <=? upper_bound env b)%f32.

(** Bounce projection as the specification states it: two waypoints when
    the straight exit stays within bounds, otherwise three, none of the
    new ones outside the bounds. *)
Definition stated_project_path (b : RequestBall) : Prop :=
  let path := points (project env b) in
  hd_error path = Some (pos b) /\
  (within_bounds b (exit_y env b) = true -> List.length path = 2%nat) /\
  (within_bounds b (exit_y env b) = false ->
   List.length path = 3%nat /\
   forall q, In q (tl path) -> within_bounds b (vy q) = true).

(** Every operation that rebuilds the path leaves distance_travelled
    at 0. *)
Definition stated_distance_reset (dest_x : float) (b : RequestBall) : Prop :=
  distance_travelled (project env b) = zero /\
  distance_travelled (changeDestX env dest_x b) = zero.

(** The progress query answers a zero-length path with a defined value,
    not with NaN. *)
Definition stated_progress_guarded (b : RequestBall) : Prop :=
  total_distance b = zero -> is_nan (getProgress b) = false.

(** Progress never decreases over a tick with non-negative [dt]. *)
Definition stated_progress_monotone (dt : float) (b : RequestBall) : Prop :=
  (zero <=? dt)%f32 = true ->
  (getProgress b <=? getProgress (animate env dt b))%f32 = true.

(** Progress is exactly 1.0 once the finished predicate holds. *)
Definition stated_progress_one (b : RequestBall) : Prop :=
  isFinished b = true -> getProgress b = one.

(** A reflecting bounce reflects the vertical component of the
    trajectory's direction. *)
Definition stated_reflected_dir (b : RequestBall) : Prop :=
  reflects env b = true ->
  vy (dir (project env b)) = (- vy (dir b))%f32.

End Stated.

(** ** Operations with usable arguments *)

(** A tick with a usable time step; the other operations take any
    argument. *)
Definition usable_op (o : op) : bool :=
  match o with
  | OpAnimate dt => usable_dt dt
  | _ => true
  end.

(** A ball that starts left of the screen: from (-10,300) towards
    (400,300). *)
Definition entering_ball : RequestBall :=
  newRequestBall logf_one (one_byte true) (pt (-10) 300) (pt 400 300).

(** The steep ball once it has bounced. *)
Definition steep_ball_bounced : RequestBall := bounce scene_env steep_ball.

(** ** The request detail shown under the mouse *)

(** [std::string] as the list of its characters. *)
Definition str : Type := list Ascii.ascii.

Definition space : Ascii.ascii := Ascii.Space.

(** [std::string(n, ' ')] *)
Definition spaces (n : nat) : str := repeat space n.

(** [s.substr(pos, n)]: the characters from [pos], at most [n] of them.
    The library throws for [pos > s.size()]; the code only calls it with
    [pos = 0] or [pos < s.length()]. *)
Definition substr (s : str) (pos n : Z) : str :=
  firstn (Z.to_nat n) (skipn (Z.to_nat pos) s).

Definition size_of (s : str) : Z := Z.of_nat (List.length s).

(** [vec3] and [vec4] colours. *)
Record vec3 : Type := mkvec3 { v3x : float; v3y : float; v3z : float }.

Record vec4 : Type := mkvec4 {
  v4x : float; v4y : float; v4z : float; v4w : float
}.

(** The calls [mouseOver] makes on the text area, in order. *)
Inductive textarea_call : Type :=
| SetText (content : list str)
| SetPos (p : vec2)
| SetColour (c : vec3).

Definition thirty_six : float := Eval vm_compute in of_Z 36.

Section RequestDetail.

(** [settings.display_fields] and [LogEntry::getDefaultFields()]. *)
Variable display_fields : list str.
Variable default_fields : list str.

(** [le->getFieldTitle(field)], and the string [le->getValue(field, value)]
    leaves in [value]. *)
Variable getFieldTitle : str -> str.
Variable getValue : str -> str.

(** The fields shown: lines 179-180. *)
Definition shown_fields : list str :=
  match display_fields with
  | [] => default_fields
  | _ => display_fields
  end.

(** The first loop, lines 182-185. *)
Definition longest_title (fields : list str) : Z :=
  fold_left (fun longest field => Z.max longest (size_of (getFieldTitle field)))
            fields 0%Z.

(** The inner loop, lines 208-210: [i] is an [unsigned int], so
    [i += max_value_length] wraps at 32 bits.  [fuel] bounds the number of
    iterations; [None] is a loop still running when it is used up. *)
Fixpoint overflow_lines (fuel : nat) (overflow_padding value : str)
         (max_value_length i : Z) (content : list str)
  : option (list str) :=
  if (i <? size_of value)%Z then
    match fuel with
    | O => None
    | S fuel' =>
        overflow_lines fuel' overflow_padding value max_value_length
          (uint32 (i + max_value_length))
          (content ++ [overflow_padding ++ substr value i max_value_length])
    end
  else Some content.

(** The title of a field padded to the longest title, lines 189-195. *)
Definition padded_title (longest : Z) (field : str) : str :=
  let title := getFieldTitle field in
  let title_padding_length := int32 (longest - size_of title) in
  if (0 <? title_padding_length)%Z
  then title ++ spaces (Z.to_nat title_padding_length)
  else title.

(** [100 - overflow_padding.size()] as an [unsigned int], line 203. *)
Definition max_value_length_of (title : str) : Z :=
  uint32 (100 - size_of (spaces (List.length title + 1))).

(** The body of the second loop, lines 189-211. *)
Definition format_field (fuel : nat) (longest : Z) (field : str)
           (content : list str) : option (list str) :=
  let title := padded_title longest field in
  let value := getValue field in
  let overflow_padding := spaces (List.length title + 1) in
  let max_value_length := max_value_length_of title in
  match value with
  | [] => Some content
  | _ =>
      overflow_lines fuel overflow_padding value max_value_length
        max_value_length
        (content ++ [title ++ [space] ++ substr value 0 max_value_length])
  end.

Fixpoint format_fields (fuel : nat) (longest : Z) (fields : list str)
         (content : list str) : option (list str) :=
  match fields with
  | [] => Some content
  | field :: rest =>
      match format_field fuel longest field content with
      | None => None
      | Some content' => format_fields fuel longest rest content'
      end
  end.

(** [RequestBall::formatRequestDetail]; [content] is the vector the lines
    are appended to. *)
Definition formatRequestDetail (fuel : nat) (content : list str)
  : option (list str) :=
  format_fields fuel (longest_title shown_fields) shown_fields content.

(** [RequestBall::mouseOver]: the calls made on the text area and the
    value returned.  [colour] is the ball's colour, which no other function
    modelled here reads. *)
Definition mouseOver (colour : vec3) (fuel : nat) (mouse : vec2)
           (b : RequestBall) : option (list textarea_call * bool) :=
  let from_mouse := vsub (pos b) mouse in
  if (dot from_mouse from_mouse <? thirty_six)%f32 then
    match formatRequestDetail fuel [] with
    | None => None
    | Some content =>
        Some ([SetText content; SetPos mouse; SetColour colour], true)
    end
  else Some ([], false).

End RequestDetail.

(** ** The response code drawn at the destination *)

(** [std::min(a, b)]: [(b < a) ? b : a]. *)
Definition fmin (a b : float) : float := if (b <? a)%f32 then b else a.

Definition two : float := Eval vm_compute in of_Z 2.
Definition forty_five : float := Eval vm_compute in of_Z 45.
Definition hundred : float := Eval vm_compute in of_Z 100.

(** [0.001f] *)
Definition milli : float := Eval vm_compute in (of_Z 1 / of_Z 1000)%f32.

(** The calls [drawResponseCode] makes on the font, in order. *)
Inductive font_call : Type :=
| FontSetColour (c : vec4)
| FontDraw (x y : float) (text : str).

(** [RequestBall::drawResponseCode]; [response_colour] and [response_code]
    are the fields of the log entry it reads. *)
Definition drawResponseCode (response_colour : vec3) (response_code : str)
           (b : RequestBall) : list font_call :=
  let prog := getProgress b in
  let alpha := (one - fmin one (prog * two))%f32 in
  if (alpha <=? milli)%f32 then []
  else
    let drift := (prog * hundred)%f32 in
    let msgpos := vadd (vscale (dir b) drift)
                       (mkvec2 (vx (dest b) - forty_five)%f32 (vy (dest b))) in
    [FontSetColour (mkvec4 (v3x response_colour) (v3y response_colour)
                           (v3z response_colour) alpha);
     FontDraw (vx msgpos) (vy msgpos) response_code].

(** ** A concrete request detail

    Three fields titled by their names; the host fits on a line, the path
    has 250 characters, the referrer is empty. *)
Module Sample.

Import Ascii String.

Definition fields : list str :=
  map list_ascii_of_string ["vhost"; "path"; "referrer"]%string.

Definition title (field : str) : str := field.

Definition value (field : str) : str :=
  match field with
  | "v"%char :: _ => list_ascii_of_string "example.org"
  | "p"%char :: _ => repeat "x"%char 250
  | _ => []
  end.

(** Titles of 99 and of 120 characters. *)
Definition title_99 (field : str) : str := repeat "t"%char 99.

Definition title_120 (field : str) : str := repeat "t"%char 120.

Definition response_code : str := list_ascii_of_string "200".

End Sample.

Definition white : vec3 := mkvec3 one one one.

(** * Facts about binary32 comparisons *)

Lemma SFcompare_antisym (x y : float) :
  SFcompare y x = option_map CompOpp (SFcompare x y).
Proof.
  destruct x as [sx|sx| |sx mx ex], y as [sy|sy| |sy my ey]; simpl;
    try reflexivity;
    try (destruct sx; reflexivity); try (destruct sy; reflexivity);
    try (destruct sx, sy; reflexivity).
  assert (Hm : Pos.compare_cont Eq my mx = CompOpp (Pos.compare_cont Eq mx my))
    by (symmetry; apply (Pos.compare_cont_antisym mx my Eq)).
  destruct sx, sy; simpl; try reflexivity;
    rewrite (Z.compare_antisym ex ey), Hm;
    destruct (ex ?= ey)%Z; simpl; try reflexivity;
    now rewrite CompOpp_involutive.
Qed.

Lemma leb_ltb_false (x y : float) : (x <=? y)%f32 = true -> (y <? x)%f32 = false.
Proof.
  unfold leb, ltb, SFleb, SFltb. rewrite (SFcompare_antisym x y).
  destruct (SFcompare x y) as [[]|]; simpl; congruence.
Qed.

Lemma SFcompare_refl (x : float) : is_nan x = false -> SFcompare x x = Some Eq.
Proof.
  destruct x as [s|s| |s m e]; simpl; try reflexivity; try discriminate.
  - destruct s; reflexivity.
  - intros _. rewrite Z.compare_refl.
    assert (H : Pos.compare_cont Eq m m = Eq) by apply Pos.compare_refl.
    rewrite H. destruct s; reflexivity.
Qed.

Lemma leb_not_nan (x y : float) :
  (x <=? y)%f32 = true -> is_nan x = false /\ is_nan y = false.
Proof.
  unfold leb, SFleb. destruct x, y; simpl; try discriminate; auto.
Qed.

Lemma leb_refl (x : float) : is_nan x = false -> (x <=? x)%f32 = true.
Proof.
  intros H. unfold leb, SFleb. now rewrite SFcompare_refl.
Qed.

Ltac compare_cases :=
  repeat match goal with
         | |- context [Z.compare ?a ?b] => destruct (Z.compare_spec a b)
         | |- context [Pos.compare_cont Eq ?a ?b] =>
             change (Pos.compare_cont Eq a b) with (Pos.compare a b);
             destruct (Pos.compare_spec a b)
         end.

Lemma leb_trans (x y z : float) :
  (x <=? y)%f32 = true -> (y <=? z)%f32 = true -> (x <=? z)%f32 = true.
Proof.
  unfold leb, SFleb.
  destruct x as [sx|[]| |[] mx ex], y as [sy|[]| |[] my ey],
    z as [sz|[]| |[] mz ez]; cbn [SFcompare];
    try (intros; reflexivity); try (intros; discriminate);
    compare_cases; cbn [CompOpp]; intros; subst;
    try reflexivity; try discriminate; try lia.
Qed.

Lemma ltb_leb (x y : float) : (x <? y)%f32 = true -> (x <=? y)%f32 = true.
Proof.
  unfold ltb, leb, SFltb, SFleb. destruct (SFcompare x y) as [[]|]; congruence.
Qed.

(** Two floats that are not NaN are comparable. *)
Lemma ltb_false_leb (x y : float) :
  (x <? y)%f32 = false -> is_nan x = false -> is_nan y = false ->
  (y <=? x)%f32 = true.
Proof.
  unfold ltb, leb, SFltb, SFleb. rewrite (SFcompare_antisym x y).
  destruct x as [sx|[]| |[] mx ex], y as [sy|[]| |[] my ey];
    cbn [SFcompare option_map CompOpp is_nan];
    try (intros; reflexivity); try (intros; discriminate);
    compare_cases; cbn [CompOpp]; intros; subst;
    try reflexivity; try discriminate; try lia.
Qed.

Lemma ltb_nan (x y : float) : is_nan x = true -> (x <? y)%f32 = false.
Proof. destruct x; try discriminate. reflexivity. Qed.

Lemma leb_ltb_trans (x y z : float) :
  (x <=? y)%f32 = true -> (y <? z)%f32 = true -> (z <=? x)%f32 = false.
Proof.
  intros H1 H2. destruct (z <=? x)%f32 eqn:E; [|reflexivity].
  pose proof (leb_ltb_false _ _ (leb_trans _ _ _ E H1)) as H. congruence.
Qed.

(** * Bounce projection *)

Section Projection.

Variable env : Env.

Lemma project_frame (b : RequestBall) :
  le (project env b) = le b /\ pos (project env b) = pos b /\
  dest (project env b) = dest b /\ dir (project env b) = heading b /\
  size (project env b) = size b /\ offset (project env b) = offset b /\
  has_bounced (project env b) = has_bounced b /\
  no_bounce (project env b) = no_bounce b /\
  distance_travelled (project env b) = zero.
Proof.
  unfold project. destruct (reflects env b); cbn; repeat split; reflexivity.
Qed.

Lemma project_points (b : RequestBall) :
  points (project env b) =
  if reflects env b then
    let iy := if (exit_y env b <=? lower_bound b)%f32
              then lower_bound b else upper_bound env b in
    let ix := (vx (pos b)
               + (iy - vy (pos b)) / (vy (heading b) / vx (heading b)))%f32 in
    [pos b; mkvec2 ix iy;
     mkvec2 (far_target_x env b)
            (iy + (- vy (heading b)) / vx (heading b)
                  * (far_target_x env b - ix))%f32]
  else [pos b; mkvec2 (far_target_x env b) (exit_y env b)].
Proof.
  unfold project. destruct (reflects env b); reflexivity.
Qed.

Lemma heading_y (b : RequestBall) : vy (heading b) = vy (dir b).
Proof. unfold heading. now destruct (no_bounce b). Qed.

Lemma within_bounds_straight (b : RequestBall) :
  within_bounds env b (exit_y env b) = true -> reflects env b = false.
Proof.
  unfold within_bounds, reflects, gtb. intros H.
  apply andb_true_iff in H as [Hlo Hhi].
  apply leb_ltb_false in Hlo, Hhi. fold ltb.
  now rewrite Hlo, Hhi.
Qed.

(** C6: bounce projection aims at the right display edge and keeps the
    horizontal component of the direction for a terminal (no-bounce)
    event; otherwise it aims at x = 0 and negates the horizontal
    component.  The far target is the x of the last waypoint of the
    projected path. *)
Theorem project_far_target (b : RequestBall) :
  vx (getFinishPos (project env b))
  = (if no_bounce b then of_Z (display_width env) else zero) /\
  vx (dir (project env b))
  = (if no_bounce b then vx (dir b) else (- vx (dir b))%f32).
Proof.
  split.
  - unfold getFinishPos. rewrite project_points.
    unfold far_target_x.
    destruct (reflects env b), (no_bounce b); reflexivity.
  - destruct (project_frame b) as (_ & _ & _ & -> & _).
    unfold heading. now destruct (no_bounce b).
Qed.

(** C7 (amended): bounce projection never changes the vertical component
    of the trajectory's direction field; on a reflecting bounce only a
    local copy of the direction is reflected, and the last waypoint
    continues from the bounce point with the slope [(- dir.y) / dir.x] of
    that copy. *)
Theorem project_keeps_dir_y (b : RequestBall) :
  vy (dir (project env b)) = vy (dir b) /\
  (reflects env b = true ->
   exists q,
     nth_error (points (project env b)) 1 = Some q /\
     nth_error (points (project env b)) 2
     = Some (mkvec2 (far_target_x env b)
                    (vy q + (- vy (dir b)) / vx (dir (project env b))
                            * (far_target_x env b - vx q))%f32)).
Proof.
  destruct (project_frame b) as (_ & _ & _ & Hd & _).
  rewrite Hd, heading_y. split; [reflexivity|].
  intros H. rewrite project_points, H. cbn zeta. rewrite heading_y.
  eexists. split; reflexivity.
Qed.

End Projection.

Lemma project_keeps_dir_y_witness :
  reflects scene_env steep_ball = true /\
  exists q,
    nth_error (points (project scene_env steep_ball)) 1 = Some q /\
    nth_error (points (project scene_env steep_ball)) 2
    = Some (mkvec2 (far_target_x scene_env steep_ball)
              (vy q + (- vy (dir steep_ball))
                      / vx (dir (project scene_env steep_ball))
                      * (far_target_x scene_env steep_ball - vx q))%f32).
Proof.
  split; [vm_compute; reflexivity|].
  apply (proj2 (project_keeps_dir_y scene_env steep_ball)). vm_compute; reflexivity.
Defined.

(** C7 (as stated) fails: the steep ball reflects off the bottom bound, and
    the vertical component of its direction field is the same before and
    after the projection, not its opposite. *)
Lemma reflected_dir_counterexample :
  ~ stated_reflected_dir scene_env steep_ball.
Proof.
  unfold stated_reflected_dir. intros H.
  assert (R : reflects scene_env steep_ball = true) by (vm_compute; reflexivity).
  specialize (H R). vm_compute in H. discriminate H.
Qed.

Section ProjectedPath.

Variable env : Env.

Lemma bound_within_bounds (b : RequestBall) :
  (lower_bound b <=? upper_bound env b)%f32 = true ->
  within_bounds env b (lower_bound b) = true /\
  within_bounds env b (upper_bound env b) = true.
Proof.
  intros H. destruct (leb_not_nan _ _ H) as [Hl Hu].
  unfold within_bounds. now rewrite H, !leb_refl.
Qed.

(** C1 (amended): bounce projection produces a path of 2 or 3 waypoints
    that starts at the current position.  With [lo = half_extent.y],
    [hi = display_height - half_extent.y], [tx] the far target x, [t] the
    slope [dir.y / dir.x] after lines 87-92 and
    [y = pos.y + t * (tx - pos.x)] the straight extrapolation: when [y] is
    neither below [lo] nor above [hi] (in particular when it lies within
    [[lo, hi]]) exactly the waypoint [(tx, y)] is appended.  When [y] is
    below [lo] or above [hi] the path has 3 waypoints; the intermediate
    one, [q], has y [lo] when [y < lo] and [hi] when [y <= lo] fails, so
    that, whenever [lo <= hi], it lies on the bound that was crossed ([hi]
    when [y > hi]) and within the bounds; its x is
    [pos.x + (q.y - pos.y) / t]; the last one is the plain continuation
    [(tx, q.y + (-dir.y / dir.x) * (tx - q.x))] with the mirrored slope,
    about whose y nothing more is promised. *)
Theorem project_path (b : RequestBall) :
  let lo := vy (offset b) in
  let hi := (of_Z (display_height env) - vy (offset b))%f32 in
  let tx := if no_bounce b then of_Z (display_width env) else zero in
  let hx := if no_bounce b then vx (dir b) else (- vx (dir b))%f32 in
  let t := (vy (dir b) / hx)%f32 in
  let y := (vy (pos b) + t * (tx - vx (pos b)))%f32 in
  hd_error (points (project env b)) = Some (pos b) /\
  ((lo <=? y)%f32 = true -> (y <=? hi)%f32 = true ->
   points (project env b) = [pos b; mkvec2 tx y]) /\
  ((y <? lo)%f32 = false -> (y >? hi)%f32 = false ->
   points (project env b) = [pos b; mkvec2 tx y]) /\
  ((y <? lo)%f32 = true \/ (y >? hi)%f32 = true ->
   exists q r,
     points (project env b) = [pos b; q; r] /\
     ((y <? lo)%f32 = true -> vy q = lo) /\
     ((y <=? lo)%f32 = false -> vy q = hi) /\
     ((lo <=? hi)%f32 = true ->
      ((y >? hi)%f32 = true -> vy q = hi) /\
      (lo <=? vy q)%f32 = true /\ (vy q <=? hi)%f32 = true) /\
     vx q = (vx (pos b) + (vy q - vy (pos b)) / t)%f32 /\
     r = mkvec2 tx (vy q + (- vy (dir b)) / hx * (tx - vx q))%f32).
Proof.
  cbn zeta. rewrite project_points.
  unfold reflects, exit_y, lower_bound, upper_bound, far_target_x, gtb.
  cbv zeta. change (of_Z 0) with zero. fold ltb.
  rewrite (heading_y b).
  assert (Hx : vx (heading b)
               = if no_bounce b then vx (dir b) else (- vx (dir b))%f32)
    by (unfold heading; destruct (no_bounce b); reflexivity).
  rewrite Hx.
  set (lo := vy (offset b)).
  set (hi := (of_Z (display_height env) - lo)%f32).
  set (hx := if no_bounce b then vx (dir b) else (- vx (dir b))%f32).
  set (tx := if no_bounce b then of_Z (display_width env) else zero).
  set (y := (vy (pos b) + vy (dir b) / hx * (tx - vx (pos b)))%f32).
  split; [destruct (_ || _); reflexivity|].
  split; [|split].
  - intros H1 H2. apply leb_ltb_false in H1, H2. now rewrite H1, H2.
  - intros H1 H2. now rewrite H1, H2.
  - intros H.
    assert (R : ((y <? lo)%f32 || (hi <? y)%f32)%bool = true)
      by (apply orb_true_iff; exact H).
    rewrite R. cbn zeta. do 2 eexists. split; [reflexivity|].
    cbn [vx vy]. repeat split.
    + intros L. now rewrite (ltb_leb _ _ L).
    + intros L. now rewrite L.
    + intros G. now rewrite (leb_ltb_trans _ _ _ H0 G).
    + destruct (leb_not_nan _ _ H0) as [Hl Hu].
      destruct (y <=? lo)%f32; [now apply leb_refl | exact H0].
    + destruct (leb_not_nan _ _ H0) as [Hl Hu].
      destruct (y <=? lo)%f32; [exact H0 | now apply leb_refl].
Qed.

End ProjectedPath.

Lemma project_path_witness :
  points (project scene_env flat_ball) = [pos flat_ball; pt 0 300] /\
  exists q r,
    points (project scene_env steep_ball) = [pos steep_ball; q; r] /\
    vy q = (of_Z (display_height scene_env) - vy (offset steep_ball))%f32 /\
    (vy (offset steep_ball) <=? vy q)%f32 = true /\
    (vy q <=? of_Z (display_height scene_env) - vy (offset steep_ball))%f32
    = true /\
    vx r = zero.
Proof.
  split.
  - apply (proj1 (proj2 (proj2 (project_path scene_env flat_ball))));
      vm_compute; reflexivity.
  - destruct (proj2 (proj2 (proj2 (project_path scene_env steep_ball))))
      as (q & r & Hp & _ & _ & Hb & _ & Hr);
      [right; vm_compute; reflexivity|].
    destruct Hb as (Hq & Hl & Hu); [vm_compute; reflexivity|].
    exists q, r. repeat split; [exact Hp | | exact Hl | exact Hu |].
    + apply Hq. vm_compute. reflexivity.
    + rewrite Hr. reflexivity.
Defined.

(** C1 (as stated) fails: once the steep ball has reflected off the bottom
    bound, the last waypoint of its path is far above the top bound (its y
    is negative). *)
Lemma project_path_counterexample :
  ~ stated_project_path scene_env steep_ball.
Proof.
  unfold stated_project_path. intros (_ & _ & H).
  assert (W : within_bounds scene_env steep_ball (exit_y scene_env steep_ball)
              = false) by (vm_compute; reflexivity).
  destruct (H W) as [_ Hq].
  specialize (Hq (nth 2 (points (project scene_env steep_ball)) vzero)).
  assert (I : In (nth 2 (points (project scene_env steep_ball)) vzero)
                 (tl (points (project scene_env steep_ball)))).
  { vm_compute. right. left. reflexivity. }
  specialize (Hq I). vm_compute in Hq. discriminate Hq.
Qed.

(** The two plain scenarios of the specification, evaluated: a successful
    request on a horizontal line exits at x = 0 with a single new waypoint,
    a failed one at the right edge, its direction unchanged. *)
Example scenario_horizontal :
  points (bounce scene_env flat_ball) = [pt 0 300; pt 0 300] /\
  points flat_ball_bounced = [pos flat_ball_moving; pt 0 300].
Proof. split; vm_compute; reflexivity. Qed.

Example scenario_failed :
  getFinishPos (bounce scene_env failed_ball) = pt 800 300 /\
  dir (bounce scene_env failed_ball) = dir failed_ball.
Proof. split; vm_compute; reflexivity. Qed.

(** * The bounce transition and the per-tick advance *)

Section Transitions.

Variable env : Env.

Lemma bounce_has_bounced (b : RequestBall) :
  has_bounced (bounce env b) = true.
Proof.
  unfold bounce. destruct (has_bounced b) eqn:E; [exact E | reflexivity].
Qed.

Lemma bounce_noop (b : RequestBall) :
  has_bounced b = true -> bounce env b = b.
Proof. unfold bounce. now intros ->. Qed.

(** The loop of [animate] stops by itself within [nolines - pointno]
    iterations: any fuel beyond that gives the same result. *)
Lemma walk_fuel (lens : list float) (nolines : nat) (dist : float)
      (fuel fuel' pointno : nat) (len : float) :
  (nolines - pointno <= fuel)%nat -> (nolines - pointno <= fuel')%nat ->
  walk lens nolines dist fuel pointno len
  = walk lens nolines dist fuel' pointno len.
Proof.
  revert fuel' pointno len.
  induction fuel as [|fuel IH]; intros fuel' pointno len H H'.
  - destruct fuel' as [|fuel']; [reflexivity|]. cbn [walk].
    assert (G : (pointno <? nolines)%nat = false)
      by (apply PeanoNat.Nat.ltb_ge; lia).
    now rewrite G.
  - cbn [walk]. destruct (pointno <? nolines)%nat eqn:G.
    + apply PeanoNat.Nat.ltb_lt in G.
      destruct fuel' as [|fuel']; [lia|]. cbn [walk].
      assert (G' : (pointno <? nolines)%nat = true)
        by (apply PeanoNat.Nat.ltb_lt; lia).
      rewrite G'. cbn [andb].
      destruct (len + nth pointno lens zero <? dist)%f32; [|reflexivity].
      apply IH; lia.
    + cbn [andb]. destruct fuel' as [|fuel']; [reflexivity|]. cbn [walk].
      now rewrite G.
Qed.

(** The three ways a tick can end: the bounce transition, nothing but
    the distance counter, or a new interpolated position. *)
Lemma animate_cases (dt : float) (b : RequestBall) :
  let b1 := set_distance_travelled
              (distance_travelled b + tick_distance env dt)%f32 b in
  (has_bounced b = false /\ animate env dt b = bounce env b1) \/
  (has_bounced b = true /\ animate env dt b = b1) \/
  ((distance_travelled b1 >=? total_distance b1)%f32 = false /\
   exists v, animate env dt b = set_pos v b1).
Proof.
  intros b1. unfold animate. fold b1.
  destruct (distance_travelled b1 >=? total_distance b1)%f32 eqn:G.
  - change (has_bounced b1) with (has_bounced b).
    destruct (has_bounced b); cbn; auto.
  - destruct (walk _ _ _ _ _ _) as [pointno len].
    destruct (_ <=? pointno)%nat.
    + change (has_bounced b1) with (has_bounced b).
      destruct (has_bounced b); cbn; auto.
    + right. right. split; [reflexivity|]. eexists. reflexivity.
Qed.

Lemma step_has_bounced (o : op) (b : RequestBall) :
  has_bounced b = true -> has_bounced (step env o b) = true.
Proof.
  intros H. destruct o as [x| |dt]; cbn.
  - unfold changeDestX. now rewrite H.
  - now rewrite bounce_noop.
  - destruct (animate_cases dt b) as [[E _]|[[_ ->]|[_ [v ->]]]];
      [congruence | exact H | exact H].
Qed.

Lemma trace_has_bounced (ops : list op) (b : RequestBall) :
  has_bounced b = true ->
  Forall (fun s => has_bounced s = true) (trace env ops b).
Proof.
  revert b. induction ops as [|o ops IH]; intros b H; cbn.
  - now constructor.
  - constructor; [exact H|]. apply IH. now apply step_has_bounced.
Qed.

Lemma flips_all_true (l : list RequestBall) :
  Forall (fun s => has_bounced s = true) l ->
  flips (map has_bounced l) = 0%nat.
Proof.
  induction l as [|s l IH]; intros H; [reflexivity|].
  inversion H as [|? ? Hs Hl]; subst.
  destruct l as [|s' l]; [reflexivity|].
  inversion Hl as [|? ? Hs' _]; subst. specialize (IH Hl).
  change (flips (map has_bounced (s :: s' :: l)))
    with ((if Bool.eqb (has_bounced s) (has_bounced s') then 0 else 1)
          + flips (map has_bounced (s' :: l)))%nat.
  now rewrite Hs, Hs', IH.
Qed.

Lemma flips_cons (a c : bool) (l : list bool) :
  flips (a :: c :: l)
  = ((if Bool.eqb a c then 0 else 1) + flips (c :: l))%nat.
Proof. reflexivity. Qed.

Lemma trace_head (ops : list op) (b : RequestBall) :
  exists rest, trace env ops b = b :: rest.
Proof. destruct ops; eexists; reflexivity. Qed.

(** C5: over any sequence of operations [has_bounced] changes value at
    most once, and once true it stays true; [bounce] always leaves it
    true, and a bounce requested on a ball that has bounced returns the
    state as it is (path, total_distance and distance_travelled
    included), so bouncing twice is bouncing once. *)
Theorem bounce_at_most_once (ops : list op) (b : RequestBall) :
  (flips (map has_bounced (trace env ops b)) <= 1)%nat /\
  (has_bounced b = true ->
   Forall (fun s => has_bounced s = true) (trace env ops b)) /\
  has_bounced (bounce env b) = true /\
  bounce env (bounce env b) = bounce env b /\
  (has_bounced b = true ->
   points (bounce env b) = points b /\
   line_lengths (bounce env b) = line_lengths b /\
   total_distance (bounce env b) = total_distance b /\
   distance_travelled (bounce env b) = distance_travelled b).
Proof.
  split; [|split; [|split; [|split]]].
  - revert b. induction ops as [|o ops IH]; intros b; [cbn; lia|].
    change (trace env (o :: ops) b) with (b :: trace env ops (step env o b)).
    specialize (IH (step env o b)).
    pose proof (fun H => flips_all_true
                           (trace_has_bounced ops (step env o b) H)) as F.
    destruct (trace_head ops (step env o b)) as [rest E].
    rewrite E in *.
    change (map has_bounced (b :: step env o b :: rest))
      with (has_bounced b :: map has_bounced (step env o b :: rest)).
    change (map has_bounced (step env o b :: rest))
      with (has_bounced (step env o b) :: map has_bounced rest) in *.
    rewrite flips_cons.
    destruct (has_bounced b) eqn:Hb.
    + rewrite (step_has_bounced o b Hb) in *. rewrite F by reflexivity.
      cbn. lia.
    + destruct (has_bounced (step env o b)) eqn:Hs.
      * rewrite F by reflexivity. cbn. lia.
      * cbn [Bool.eqb]. lia.
  - apply trace_has_bounced.
  - apply bounce_has_bounced.
  - apply bounce_noop, bounce_has_bounced.
  - intros H. now rewrite (bounce_noop b H).
Qed.

End Transitions.

Lemma bounce_at_most_once_witness :
  has_bounced (bounce scene_env flat_ball) = true /\
  Forall (fun s => has_bounced s = true)
         (trace scene_env [OpBounce; OpAnimate one; OpChangeDestX five]
                (bounce scene_env flat_ball)) /\
  points (bounce scene_env (bounce scene_env flat_ball))
  = points (bounce scene_env flat_ball).
Proof.
  assert (H : has_bounced (bounce scene_env flat_ball) = true)
    by (vm_compute; reflexivity).
  pose proof (bounce_at_most_once scene_env
                [OpBounce; OpAnimate one; OpChangeDestX five]
                (bounce scene_env flat_ball)) as (_ & T & _ & _ & P).
  split; [exact H|]. split; [exact (T H) | exact (proj1 (P H))].
Defined.

Section Advance.

Variable env : Env.

Lemma bounce_pos (b : RequestBall) : pos (bounce env b) = pos b.
Proof.
  unfold bounce. destruct (has_bounced b); [reflexivity|].
  cbn. now destruct (project_frame env b) as (_ & -> & _).
Qed.

(** C10: a tick whose incremented distance_travelled is greater than or
    equal to total_distance leaves the position as it is, whether that
    tick triggers the bounce projection or the ball has already bounced;
    in the latter case the tick only stores the incremented distance, so
    the counter keeps accumulating while the position is frozen. *)
Theorem animate_keeps_pos (dt : float) (b : RequestBall) :
  ((distance_travelled b + tick_distance env dt)%f32
   >=? total_distance b)%f32 = true ->
  pos (animate env dt b) = pos b /\
  (has_bounced b = true ->
   animate env dt b
   = set_distance_travelled
       (distance_travelled b + tick_distance env dt)%f32 b) /\
  (has_bounced b = false ->
   animate env dt b
   = bounce env (set_distance_travelled
                   (distance_travelled b + tick_distance env dt)%f32 b)).
Proof.
  intros G. unfold animate. cbn [distance_travelled total_distance
                                 set_distance_travelled has_bounced].
  rewrite G. destruct (has_bounced b) eqn:Hb; cbn [negb].
  - repeat split; congruence.
  - rewrite bounce_pos. repeat split; congruence.
Qed.

End Advance.

Lemma animate_keeps_pos_witness :
  (((distance_travelled flat_ball_moving + tick_distance scene_env five)%f32
    >=? total_distance flat_ball_moving)%f32 = true /\
   has_bounced flat_ball_moving = false /\
   pos (animate scene_env five flat_ball_moving) = pos flat_ball_moving /\
   animate scene_env five flat_ball_moving
   = bounce scene_env
       (set_distance_travelled
          (distance_travelled flat_ball_moving
           + tick_distance scene_env five)%f32 flat_ball_moving)) /\
  (((distance_travelled flat_ball_bounced + tick_distance scene_env five)%f32
    >=? total_distance flat_ball_bounced)%f32 = true /\
   has_bounced flat_ball_bounced = true /\
   pos (animate scene_env five flat_ball_bounced) = pos flat_ball_bounced /\
   animate scene_env five flat_ball_bounced
   = set_distance_travelled
       (distance_travelled flat_ball_bounced
        + tick_distance scene_env five)%f32 flat_ball_bounced).
Proof.
  assert (G1 : ((distance_travelled flat_ball_moving
                 + tick_distance scene_env five)%f32
                >=? total_distance flat_ball_moving)%f32 = true)
    by (vm_compute; reflexivity).
  assert (G2 : ((distance_travelled flat_ball_bounced
                 + tick_distance scene_env five)%f32
                >=? total_distance flat_ball_bounced)%f32 = true)
    by (vm_compute; reflexivity).
  assert (N : has_bounced flat_ball_moving = false)
    by (vm_compute; reflexivity).
  assert (B : has_bounced flat_ball_bounced = true)
    by (vm_compute; reflexivity).
  destruct (animate_keeps_pos scene_env five flat_ball_moving G1)
    as (P1 & _ & F1).
  destruct (animate_keeps_pos scene_env five flat_ball_bounced G2)
    as (P2 & T2 & _).
  split.
  - split; [exact G1|]. split; [exact N|]. split; [exact P1 | exact (F1 N)].
  - split; [exact G2|]. split; [exact B|]. split; [exact P2 | exact (T2 B)].
Defined.

(** * Re-targeting before the bounce *)

Section Retarget.

Variable logf : float -> float.
Variable env : Env.

Lemma changeDestX_bounced (x : float) (b : RequestBall) :
  has_bounced b = true -> changeDestX env x b = b.
Proof. unfold changeDestX. now intros ->. Qed.

Lemma changeDestX_behind (x : float) (b : RequestBall) :
  has_bounced b = false -> (x <=? vx (pos b))%f32 = true ->
  changeDestX env x b = bounce env b.
Proof. unfold changeDestX. now intros -> ->. Qed.

Lemma changeDestX_ahead (x : float) (b : RequestBall) :
  has_bounced b = false -> (x <=? vx (pos b))%f32 = false ->
  let start := front (points b) in
  let d := mkvec2 x (vy start
                     + vy (dir b) / vx (dir b) * (x - vx start))%f32 in
  changeDestX env x b
  = mkBall (le b) (pos b) d (dir b) (size b) (offset b) false (no_bounce b)
           (distance_travelled b) (zero + length (vsub start d))%f32
           [start; d] [length (vsub start d)].
Proof.
  unfold changeDestX. intros H ->. rewrite H. reflexivity.
Qed.

(** C3 (amended): bounce projection leaves distance_travelled at 0.
    Re-targeting does so only when it turns into the bounce transition
    (new x at or behind the position); when it rebuilds the path as a
    straight line to the new destination, and when it is a no-op,
    distance_travelled keeps its value. *)
Theorem distance_travelled_reset (x : float) (b : RequestBall) :
  distance_travelled (project env b) = zero /\
  (has_bounced b = false -> (x <=? vx (pos b))%f32 = true ->
   distance_travelled (changeDestX env x b) = zero) /\
  (has_bounced b = false -> (x <=? vx (pos b))%f32 = false ->
   List.length (points (changeDestX env x b)) = 2%nat /\
   distance_travelled (changeDestX env x b) = distance_travelled b) /\
  (has_bounced b = true ->
   distance_travelled (changeDestX env x b) = distance_travelled b).
Proof.
  pose proof (project_frame env b) as (_ & _ & _ & _ & _ & _ & _ & _ & P).
  repeat split; try assumption.
  - intros H L. rewrite (changeDestX_behind x b H L).
    unfold bounce. rewrite H. exact P.
  - rewrite (changeDestX_ahead x b H H0). reflexivity.
  - rewrite (changeDestX_ahead x b H H0). reflexivity.
  - intros H. now rewrite changeDestX_bounced.
Qed.

(** While a ball has not bounced, its direction is the one computed by
    the constructor and its path still starts at the origin. *)
Lemma lifetime_before_bounce (e : LogEntry) (p d : vec2) (b : RequestBall) :
  lifetime logf env e p d b -> has_bounced b = false ->
  dir b = normalize (vsub d p) /\ front (points b) = p.
Proof.
  induction 1 as [|o b L IH]; intros Hb.
  - split; reflexivity.
  - destruct o as [x| |dt]; cbn [step] in *.
    + unfold changeDestX in *. destruct (has_bounced b) eqn:E; [congruence|].
      destruct (x <=? vx (pos b))%f32.
      * now rewrite bounce_has_bounced in Hb.
      * destruct (IH eq_refl) as [Hd Hp]. cbn. split; assumption.
    + now rewrite bounce_has_bounced in Hb.
    + destruct (animate_cases env dt b) as [[_ A]|[[E A]|[_ [v A]]]];
        rewrite A in *.
      * now rewrite bounce_has_bounced in Hb.
      * cbn in Hb. congruence.
      * cbn in Hb |- *. now apply IH.
Qed.

(** C2: on any state of a ball constructed from origin [p] towards
    destination [d], [changeDestX dest_x] is a no-op once the ball has
    bounced; otherwise, when [dest_x <= pos.x], it is the bounce
    transition, whatever [dest_x] is; otherwise the path becomes exactly
    the two waypoints [p] and [(dest_x, p.y + t * (dest_x - p.x))] with
    [t = dir.y / dir.x] the slope of the direction the constructor
    computed from [p] and [d], the new point becoming the destination. *)
Theorem changeDestX_spec (e : LogEntry) (p d : vec2) (b : RequestBall)
        (dest_x : float) :
  lifetime logf env e p d b ->
  (has_bounced b = true -> changeDestX env dest_x b = b) /\
  (has_bounced b = false -> (dest_x <=? vx (pos b))%f32 = true ->
   changeDestX env dest_x b = bounce env b) /\
  (has_bounced b = false -> (dest_x <=? vx (pos b))%f32 = false ->
   let dir0 := normalize (vsub d p) in
   let t := (vy dir0 / vx dir0)%f32 in
   let q := mkvec2 dest_x (vy p + t * (dest_x - vx p))%f32 in
   points (changeDestX env dest_x b) = [p; q] /\
   dest (changeDestX env dest_x b) = q /\
   line_lengths (changeDestX env dest_x b) = [length (vsub p q)] /\
   total_distance (changeDestX env dest_x b)
   = (zero + length (vsub p q))%f32).
Proof.
  intros L. split; [|split].
  - apply changeDestX_bounced.
  - apply changeDestX_behind.
  - intros Hb Hx. cbn zeta.
    destruct (lifetime_before_bounce L Hb) as [Hd Hp].
    rewrite (changeDestX_ahead dest_x b Hb Hx). cbn zeta.
    rewrite Hd, Hp. cbn. repeat split; reflexivity.
Qed.

End Retarget.

Lemma changeDestX_spec_witness :
  (has_bounced flat_ball_bounced = true /\
   changeDestX scene_env (of_Z 500) flat_ball_bounced = flat_ball_bounced) /\
  (has_bounced flat_ball_moving = false /\
   (of_Z 20 <=? vx (pos flat_ball_moving))%f32 = true /\
   changeDestX scene_env (of_Z 20) flat_ball_moving
   = bounce scene_env flat_ball_moving) /\
  ((of_Z 500 <=? vx (pos flat_ball_moving))%f32 = false /\
   points (changeDestX scene_env (of_Z 500) flat_ball_moving)
   = [pt 0 300; pt 500 300]).
Proof.
  assert (L0 : lifetime logf_one scene_env (one_byte true) (pt 0 300)
                 (pt 400 300) flat_ball) by apply lifetime_new.
  assert (L1 : lifetime logf_one scene_env (one_byte true) (pt 0 300)
                 (pt 400 300) flat_ball_moving)
    by exact (lifetime_step (OpAnimate quarter) L0).
  assert (L2 : lifetime logf_one scene_env (one_byte true) (pt 0 300)
                 (pt 400 300) flat_ball_bounced)
    by exact (lifetime_step (OpAnimate five) L1).
  assert (B : has_bounced flat_ball_bounced = true)
    by (vm_compute; reflexivity).
  assert (N : has_bounced flat_ball_moving = false)
    by (vm_compute; reflexivity).
  assert (X1 : (of_Z 20 <=? vx (pos flat_ball_moving))%f32 = true)
    by (vm_compute; reflexivity).
  assert (X2 : (of_Z 500 <=? vx (pos flat_ball_moving))%f32 = false)
    by (vm_compute; reflexivity).
  split; [|split].
  - split; [exact B|].
    exact (proj1 (changeDestX_spec (of_Z 500) L2) B).
  - split; [exact N|]. split; [exact X1|].
    exact (proj1 (proj2 (changeDestX_spec (of_Z 20) L1)) N X1).
  - split; [exact X2|].
    pose proof (proj1 (proj2 (proj2 (changeDestX_spec (of_Z 500) L1)) N X2))
      as P.
    rewrite P. vm_compute. reflexivity.
Defined.

Lemma distance_travelled_reset_witness :
  (has_bounced flat_ball_moving = false /\
   (of_Z 20 <=? vx (pos flat_ball_moving))%f32 = true /\
   distance_travelled (changeDestX scene_env (of_Z 20) flat_ball_moving)
   = zero) /\
  ((of_Z 500 <=? vx (pos flat_ball_moving))%f32 = false /\
   distance_travelled (changeDestX scene_env (of_Z 500) flat_ball_moving)
   = distance_travelled flat_ball_moving) /\
  (has_bounced flat_ball_bounced = true /\
   distance_travelled (changeDestX scene_env (of_Z 500) flat_ball_bounced)
   = distance_travelled flat_ball_bounced).
Proof.
  assert (B : has_bounced flat_ball_bounced = true)
    by (vm_compute; reflexivity).
  assert (N : has_bounced flat_ball_moving = false)
    by (vm_compute; reflexivity).
  assert (X1 : (of_Z 20 <=? vx (pos flat_ball_moving))%f32 = true)
    by (vm_compute; reflexivity).
  assert (X2 : (of_Z 500 <=? vx (pos flat_ball_moving))%f32 = false)
    by (vm_compute; reflexivity).
  split; [|split].
  - split; [exact N|]. split; [exact X1|].
    exact (proj1 (proj2 (distance_travelled_reset scene_env (of_Z 20)
                           flat_ball_moving)) N X1).
  - split; [exact X2|].
    exact (proj2 (proj1 (proj2 (proj2
             (distance_travelled_reset scene_env (of_Z 500)
                flat_ball_moving))) N X2)).
  - split; [exact B|].
    exact (proj2 (proj2 (proj2
             (distance_travelled_reset scene_env (of_Z 500)
                flat_ball_bounced))) B).
Defined.

(** C3 (as stated) fails: after one tick the horizontal ball has travelled
    30 pixels; re-targeting it to x = 500 rebuilds its path and leaves
    distance_travelled at 30. *)
Lemma distance_reset_counterexample :
  ~ stated_distance_reset scene_env (of_Z 500) flat_ball_moving.
Proof.
  unfold stated_distance_reset. intros [_ H]. vm_compute in H. discriminate H.
Qed.

(** * The Euclidean distance does not depend on the order of its points *)

Lemma SFabs_binary_round_aux (s : bool) (mx ex : Z) (lx : location) :
  SFabs (binary_round_aux prec emax s mx ex lx)
  = SFabs (binary_round_aux prec emax false mx ex lx).
Proof.
  unfold binary_round_aux.
  destruct (shr_fexp prec emax mx ex lx) as [mrs' e'].
  destruct (shr_fexp prec emax _ e' loc_Exact) as [mrs'' e''].
  destruct (shr_m mrs''); try reflexivity.
  destruct (e'' <=? emax - prec)%Z; reflexivity.
Qed.

Lemma SFabs_binary_normalize_opp (m e : Z) (sz : bool) :
  SFabs (binary_normalize prec emax (- m) e sz)
  = SFabs (binary_normalize prec emax m e sz).
Proof.
  destruct m as [|m|m]; cbn [Z.opp binary_normalize]; try reflexivity;
    unfold binary_round; destruct (shl_align _ _ _) as [mz ez];
    [|symmetry]; apply SFabs_binary_round_aux.
Qed.

Lemma SFabs_sub_swap (a b : float) : SFabs (a - b)%f32 = SFabs (b - a)%f32.
Proof.
  unfold sub.
  destruct a as [sa|sa| |sa ma ea], b as [sb|sb| |sb mb eb];
    try reflexivity;
    try (destruct sa, sb; reflexivity).
  cbn [SFsub]. rewrite (Z.min_comm eb ea).
  rewrite <- SFabs_binary_normalize_opp. f_equal. f_equal. lia.
Qed.

Lemma mul_self_abs (a : float) : (a * a)%f32 = (SFabs a * SFabs a)%f32.
Proof.
  unfold mul. destruct a as [s|s| |s m e]; try reflexivity;
    destruct s; reflexivity.
Qed.

Lemma length_vsub_swap (p q : vec2) : length (vsub p q) = length (vsub q p).
Proof.
  unfold length, dot, vsub. cbn [vx vy].
  rewrite (mul_self_abs (vx p - vx q)%f32), (mul_self_abs (vy p - vy q)%f32).
  rewrite (SFabs_sub_swap (vx p) (vx q)), (SFabs_sub_swap (vy p) (vy q)).
  now rewrite <- !mul_self_abs.
Qed.

(** * The path invariant *)

Section PathInvariant.

Variable logf : float -> float.
Variable env : Env.

Lemma segments_snoc (l : list vec2) (p : vec2) :
  l <> [] ->
  segments (l ++ [p]) = segments l ++ [length (vsub p (back l))].
Proof.
  induction l as [|a l IH]; [congruence|]. intros _.
  destruct l as [|c l]; [reflexivity|].
  change (segments ((a :: c :: l) ++ [p]))
    with (length (vsub c a) :: segments ((c :: l) ++ [p])).
  rewrite IH by discriminate. reflexivity.
Qed.

Lemma segments_length (l : list vec2) :
  List.length (segments l) = (List.length l - 1)%nat.
Proof.
  induction l as [|a l IH]; [reflexivity|].
  destruct l as [|c l]; [reflexivity|].
  change (segments (a :: c :: l))
    with (length (vsub c a) :: segments (c :: l)).
  cbn [List.length] in *. rewrite IH. lia.
Qed.

Lemma segments_nth (l : list vec2) (i : nat) :
  (i < List.length (segments l))%nat ->
  nth i (segments l) zero = length (vsub (nth (S i) l vzero) (nth i l vzero)).
Proof.
  revert i. induction l as [|a l IH]; intros i Hi; [cbn in Hi; lia|].
  destruct l as [|c l]; [cbn in Hi; lia|].
  change (segments (a :: c :: l))
    with (length (vsub c a) :: segments (c :: l)) in *.
  destruct i as [|i]; [reflexivity|].
  cbn [List.length] in Hi. apply PeanoNat.lt_S_n in Hi.
  exact (IH i Hi).
Qed.

Lemma path_ok_invariant (b : RequestBall) : path_ok b -> path_invariant b.
Proof.
  intros (Hne & Hs & Ht). constructor; try assumption.
  - rewrite Hs, segments_length.
    destruct (points b); [congruence | cbn; lia].
  - rewrite Hs. intros i Hi. now apply segments_nth.
Qed.

Lemma addPoint_path_ok (p : vec2) (b : RequestBall) :
  path_ok b -> path_ok (addPoint p b).
Proof.
  intros (Hne & Hs & Ht). unfold path_ok, addPoint. cbn. repeat split.
  - now destruct (points b).
  - rewrite segments_snoc, Hs, length_vsub_swap by assumption. reflexivity.
  - unfold total in *. rewrite fold_left_app, Ht. reflexivity.
Qed.

Lemma newRequestBall_path_ok (e : LogEntry) (p d : vec2) :
  path_ok (newRequestBall logf e p d).
Proof.
  unfold path_ok. cbn. repeat split; [discriminate|].
  now rewrite length_vsub_swap.
Qed.

Lemma project_path_ok (b : RequestBall) : path_ok (project env b).
Proof.
  unfold project. destruct (reflects env b);
    repeat apply addPoint_path_ok;
    (split; [discriminate | split; reflexivity]).
Qed.

Lemma bounce_path_ok (b : RequestBall) : path_ok b -> path_ok (bounce env b).
Proof.
  intros H. unfold bounce. destruct (has_bounced b); [exact H|].
  exact (project_path_ok b).
Qed.

Lemma changeDestX_path_ok (x : float) (b : RequestBall) :
  path_ok b -> path_ok (changeDestX env x b).
Proof.
  intros H. unfold changeDestX. destruct (has_bounced b); [exact H|].
  destruct (x <=? vx (pos b))%f32; [now apply bounce_path_ok|].
  apply addPoint_path_ok. split; [discriminate | split; reflexivity].
Qed.

Lemma animate_path_ok (dt : float) (b : RequestBall) :
  path_ok b -> path_ok (animate env dt b).
Proof.
  intros H.
  destruct (animate_cases env dt b) as [[_ ->]|[[_ ->]|[_ [v ->]]]];
    [apply bounce_path_ok | |]; exact H.
Qed.

Lemma step_path_ok (o : op) (b : RequestBall) :
  path_ok b -> path_ok (step env o b).
Proof.
  destruct o; cbn [step];
    [apply changeDestX_path_ok | apply bounce_path_ok | apply animate_path_ok].
Qed.

(** C9: after construction and after every operation (re-targeting, the
    bounce with its projection, the per-tick advance) the path has one
    more waypoint than segment lengths, every segment length is the
    Euclidean distance |w(i+1) - w(i)| between its two waypoints, and
    total_distance is the sum of the segment lengths. *)
Theorem lifetime_path_invariant (e : LogEntry) (p d : vec2)
        (b : RequestBall) :
  lifetime logf env e p d b -> path_invariant b.
Proof.
  intros L. apply path_ok_invariant.
  induction L as [|o b L IH];
    [apply newRequestBall_path_ok | now apply step_path_ok].
Qed.

End PathInvariant.

Lemma lifetime_path_invariant_witness :
  path_invariant
    (step scene_env (OpAnimate one)
       (step scene_env OpBounce
          (step scene_env (OpChangeDestX (of_Z 500)) steep_ball))).
Proof.
  apply (@lifetime_path_invariant logf_one scene_env (one_byte true)
           (pt 700 300) (pt 750 590)).
  do 3 apply lifetime_step. apply lifetime_new.
Defined.

(** * The progress query on a zero-length path *)

Lemma sub_diag (a : float) : is_finite a = true -> (a - a)%f32 = zero.
Proof.
  unfold sub. destruct a as [s|s| |s m e]; try discriminate; intros _.
  - destruct s; reflexivity.
  - cbn [SFsub]. now rewrite Z.sub_diag.
Qed.

Section ZeroLength.

Variable logf : float -> float.

(** C8 (amended): the progress query is the unguarded quotient
    distance_travelled / total_distance.  For a ball constructed with its
    origin as destination (finite coordinates) the path has length 0,
    nothing has been travelled, and the query returns 0/0 = NaN. *)
Theorem progress_zero_length (e : LogEntry) (p : vec2) :
  is_finite (vx p) = true -> is_finite (vy p) = true ->
  total_distance (newRequestBall logf e p p) = zero /\
  distance_travelled (newRequestBall logf e p p) = zero /\
  getProgress (newRequestBall logf e p p) = nan.
Proof.
  intros Hx Hy.
  assert (T : total_distance (newRequestBall logf e p p) = zero).
  { cbn. unfold length, dot, vsub. cbn [vx vy].
    rewrite (sub_diag _ Hx), (sub_diag _ Hy). reflexivity. }
  unfold getProgress. rewrite T. repeat split; reflexivity.
Qed.

End ZeroLength.

Lemma progress_zero_length_witness :
  total_distance still_ball = zero /\
  distance_travelled still_ball = zero /\
  getProgress still_ball = nan.
Proof.
  apply (@progress_zero_length logf_one (one_byte true) (pt 5 7));
    vm_compute; reflexivity.
Defined.

(** C8 (as stated) fails: the ball constructed from (5,7) to (5,7) has
    total_distance 0 and its progress is NaN. *)
Lemma progress_guarded_counterexample :
  ~ stated_progress_guarded still_ball.
Proof.
  unfold stated_progress_guarded. intros H.
  assert (T : total_distance still_ball = zero) by (vm_compute; reflexivity).
  specialize (H T). vm_compute in H. discriminate H.
Qed.

(** * Rounding

    Facts about binary32 addition, multiplication and division, proved by
    following the rounding algorithm of the specification in integer
    arithmetic. *)

Local Open Scope Z_scope.
Unset Implicit Arguments.

Lemma digits_pos m : 0 < digits m.
Proof. reflexivity. Qed.

Lemma digits_bounds (m : positive) :
  2 ^ (digits m - 1) <= Zpos m < 2 ^ digits m.
Proof.
  unfold digits. induction m as [m IH|m IH|]; cbn [digits2_pos].
  - rewrite Pos2Z.inj_succ, (Pos2Z.inj_xI m).
    replace (Z.succ (Zpos (digits2_pos m)) - 1) with (Z.succ (Zpos (digits2_pos m) - 1)) by lia.
    rewrite !Z.pow_succ_r by lia.
    lia.
  - rewrite Pos2Z.inj_succ, (Pos2Z.inj_xO m).
    replace (Z.succ (Zpos (digits2_pos m)) - 1) with (Z.succ (Zpos (digits2_pos m) - 1)) by lia.
    rewrite !Z.pow_succ_r by lia.
    lia.
  - cbn. lia.
Qed.

Lemma digits_unique (m : positive) (d : Z) :
  2 ^ (d - 1) <= Zpos m < 2 ^ d -> digits m = d.
Proof.
  intros [L U]. pose proof (digits_bounds m) as [L' U'].
  pose proof (digits_pos m).
  assert (0 < d).
  { destruct (Z_lt_le_dec 0 d); [assumption|].
    assert (2 ^ d <= 2 ^ 0) by (destruct (Z_lt_le_dec d 0); [rewrite Z.pow_neg_r by lia; cbn; lia| apply Z.pow_le_mono_r; lia]).
    cbn in *. lia. }
  destruct (Z_lt_le_dec (digits m) d) as [Hlt|Hge].
  - assert (2 ^ digits m <= 2 ^ (d - 1)) by (apply Z.pow_le_mono_r; lia). lia.
  - destruct (Z_lt_le_dec d (digits m)) as [Hlt|Hle]; [|lia].
    assert (2 ^ d <= 2 ^ (digits m - 1)) by (apply Z.pow_le_mono_r; lia). lia.
Qed.

Lemma digits_le (a b : positive) : Zpos a <= Zpos b -> digits a <= digits b.
Proof.
  intros H. pose proof (digits_bounds a) as [La Ua].
  pose proof (digits_bounds b) as [Lb Ub].
  destruct (Z_lt_le_dec (digits b) (digits a)) as [Hlt|]; [|assumption].
  assert (2 ^ digits b <= 2 ^ (digits a - 1)) by (apply Z.pow_le_mono_r; lia).
  lia.
Qed.

Lemma pos_iter_xO (m d : positive) :
  Zpos (Pos.iter xO m d) = Zpos m * 2 ^ Zpos d.
Proof.
  induction d as [|d IH] using Pos.peano_ind.
  - cbn. lia.
  - rewrite Pos.iter_succ, (Pos2Z.inj_xO (Pos.iter xO m d)), IH, Pos2Z.inj_succ, Z.pow_succ_r by lia.
    lia.
Qed.

Lemma shl_align_fst (m : positive) (e e' : Z) :
  e' <= e -> Zpos (fst (shl_align m e e')) = Zpos m * 2 ^ (e - e').
Proof.
  intros H. unfold shl_align.
  destruct (e' - e) as [|d|d] eqn:E; try lia.
  - replace (e - e') with 0 by lia. cbn [fst]. lia.
  - cbn [fst]. rewrite pos_iter_xO. f_equal. f_equal. lia.
Qed.

Lemma shl_align_id (m : positive) (e e' : Z) :
  e <= e' -> shl_align m e e' = (m, e).
Proof.
  intros H. unfold shl_align. destruct (e' - e) eqn:E; try reflexivity; lia.
Qed.

Lemma shr_1_m (r : shr_record) :
  0 <= shr_m r -> shr_m (shr_1 r) = shr_m r / 2.
Proof.
  destruct r as [m r s]. cbn [shr_m]. intros H.
  rewrite <- Z.div2_div.
  destruct m as [|[p|p|]|p]; try reflexivity. lia.
Qed.

Lemma shr_record_of_loc_m (m : Z) (l : location) :
  shr_m (shr_record_of_loc m l) = m.
Proof. destruct l as [|[]]; reflexivity. Qed.

(** [fexp] at binary32. *)

Lemma fexp_eq (x : Z) : fexp prec emax x = Z.max (x - 24) (-149).
Proof. reflexivity. Qed.

Lemma digits_div (m : positive) (n : Z) :
  0 <= n < digits m ->
  exists q, Zpos m / 2 ^ n = Zpos q /\ digits q = digits m - n.
Proof.
  intros [Hn Hd]. pose proof (digits_bounds m) as [L U].
  assert (P : 0 < 2 ^ n) by (apply Z.pow_pos_nonneg; lia).
  assert (Lq : 2 ^ (digits m - n - 1) <= Zpos m / 2 ^ n).
  { apply Z.div_le_lower_bound; [assumption|].
    rewrite <- Z.pow_add_r by lia.
    replace (n + (digits m - n - 1)) with (digits m - 1) by lia. assumption. }
  assert (Uq : Zpos m / 2 ^ n < 2 ^ (digits m - n)).
  { apply Z.div_lt_upper_bound; [assumption|].
    rewrite <- Z.pow_add_r by lia.
    replace (n + (digits m - n)) with (digits m) by lia. assumption. }
  assert (P' : 0 < 2 ^ (digits m - n - 1)) by (apply Z.pow_pos_nonneg; lia).
  destruct (Zpos m / 2 ^ n) as [|q|q] eqn:E; try lia.
  exists q. split; [reflexivity|]. apply digits_unique.
  split; assumption.
Qed.

Lemma round_nearest_even_bounds (m : Z) (l : location) :
  m <= round_nearest_even m l <= m + 1.
Proof.
  destruct l as [|[]]; cbn; try destruct (Z.even m); lia.
Qed.

Lemma digits_succ_le (q p : positive) :
  Zpos p <= Zpos q + 1 -> digits p <= digits q + 1.
Proof.
  intros H. pose proof (digits_bounds q) as [Lq Uq].
  pose proof (digits_bounds p) as [Lp Up].
  destruct (Z_lt_le_dec (digits q + 1) (digits p)) as [Hlt|]; [|assumption].
  assert (2 ^ (digits q + 1) <= 2 ^ (digits p - 1))
    by (apply Z.pow_le_mono_r; lia).
  pose proof (digits_pos q).
  rewrite Z.pow_add_r in * by lia. change (2 ^ 1) with 2 in *. lia.
Qed.

Lemma digits_shl (a m : positive) (k : Z) :
  0 <= k -> Zpos a = Zpos m * 2 ^ k -> digits a = digits m + k.
Proof.
  intros Hk H. apply digits_unique. rewrite H.
  pose proof (digits_bounds m) as [L U]. pose proof (digits_pos m).
  assert (P : 0 < 2 ^ k) by (apply Z.pow_pos_nonneg; lia).
  replace (digits m + k - 1) with (digits m - 1 + k) by lia.
  rewrite !Z.pow_add_r by lia. split.
  - apply Z.mul_le_mono_nonneg_r; lia.
  - apply Z.mul_lt_mono_pos_r; lia.
Qed.

Lemma bounded_canonical (m : positive) (e : Z) :
  bounded prec emax m e = true ->
  fexp prec emax (digits m + e) = e /\ e <= 104.
Proof.
  unfold bounded, canonical_mantissa. intros H.
  apply andb_true_iff in H as [H1 H2].
  apply Z.eqb_eq in H1. apply Z.leb_le in H2. split; [exact H1 | exact H2].
Qed.

(** ** Digits of non-negative integers *)

Lemma Zdigits2_nonneg (m : Z) : 0 <= Zdigits2 m.
Proof. destruct m; cbn; lia. Qed.

Lemma Zdigits2_bounds (m : Z) :
  0 < m -> 2 ^ (Zdigits2 m - 1) <= m < 2 ^ Zdigits2 m.
Proof. destruct m as [|p|p]; try lia. intros _. apply digits_bounds. Qed.

Lemma Zdigits2_unique (m d : Z) :
  2 ^ (d - 1) <= m < 2 ^ d -> 0 < m -> Zdigits2 m = d.
Proof.
  destruct m as [|p|p]; try lia. intros H _. now apply digits_unique.
Qed.

Lemma Zdigits2_le (a b : Z) : 0 <= a <= b -> Zdigits2 a <= Zdigits2 b.
Proof.
  destruct a as [|a|a], b as [|b|b]; try lia; intros H; cbn [Zdigits2].
  - lia.
  - apply digits_le. lia.
Qed.

Lemma Zdigits2_lt_pow (m : Z) : 0 <= m -> m < 2 ^ Zdigits2 m.
Proof.
  destruct m as [|p|p]; try lia; intros _.
  - cbn. lia.
  - apply digits_bounds.
Qed.

Lemma Zdigits2_div (m n : Z) :
  0 <= m -> 0 <= n -> Zdigits2 (m / 2 ^ n) = Z.max 0 (Zdigits2 m - n).
Proof.
  intros Hm Hn. destruct m as [|p|p]; try lia.
  - rewrite Z.div_0_l by (apply Z.pow_nonzero; lia). cbn. lia.
  - cbn [Zdigits2]. fold (digits p).
    destruct (Z_lt_le_dec n (digits p)) as [Hlt|Hge].
    + destruct (digits_div p n) as (q & -> & Hq); [lia|].
      cbn [Zdigits2]. fold (digits q). lia.
    + rewrite Z.div_small.
      * cbn [Zdigits2]. lia.
      * pose proof (digits_bounds p) as [_ U].
        assert (2 ^ digits p <= 2 ^ n) by (apply Z.pow_le_mono_r; lia). lia.
Qed.

Lemma Zdigits2_succ_le (m m' : Z) :
  0 <= m -> m <= m' <= m + 1 -> Zdigits2 m <= Zdigits2 m' <= Zdigits2 m + 1.
Proof.
  intros Hm H. split; [apply Zdigits2_le; lia|].
  destruct m as [|q|q]; try lia.
  - assert (m' = 0 \/ m' = 1) as [->| ->] by lia; cbn; lia.
  - destruct m' as [|p|p]; try lia. cbn [Zdigits2].
    apply digits_succ_le. lia.
Qed.

(** ** Iterated right shifts *)

Lemma iter_pos_nat {A : Type} (f : A -> A) (p : positive) (x : A) :
  iter_pos f p x = Nat.iter (Pos.to_nat p) f x.
Proof.
  revert x. induction p as [p IH|p IH|]; intros x; cbn [iter_pos].
  - rewrite !IH, Pos2Nat.inj_xI, Nat.iter_succ_r.
    replace (2 * Pos.to_nat p)%nat with (Pos.to_nat p + Pos.to_nat p)%nat by lia.
    now rewrite Nat.iter_add.
  - rewrite !IH, Pos2Nat.inj_xO.
    replace (2 * Pos.to_nat p)%nat with (Pos.to_nat p + Pos.to_nat p)%nat by lia.
    now rewrite Nat.iter_add.
  - reflexivity.
Qed.

Lemma shr_shrn (r : shr_record) (e n : Z) :
  0 <= n -> shr r e n = (shrn (Z.to_nat n) r, e + n).
Proof.
  intros H. unfold shr, shrn. destruct n as [|p|p]; try lia.
  - cbn. now rewrite Z.add_0_r.
  - now rewrite iter_pos_nat, Z2Nat.inj_pos.
Qed.

Lemma shr_1_nonneg (r : shr_record) : 0 <= shr_m r -> 0 <= shr_m (shr_1 r).
Proof.
  intros H. rewrite shr_1_m by assumption. apply Z.div_pos; lia.
Qed.

Lemma shrn_nonneg (n : nat) (r : shr_record) :
  0 <= shr_m r -> 0 <= shr_m (shrn n r).
Proof.
  intros H. induction n as [|n IH]; [exact H|].
  cbn. now apply shr_1_nonneg.
Qed.

Lemma shrn_m (n : nat) (r : shr_record) :
  0 <= shr_m r -> shr_m (shrn n r) = shr_m r / 2 ^ Z.of_nat n.
Proof.
  intros H. induction n as [|n IH].
  - cbn. now rewrite Z.div_1_r.
  - change (shrn (S n) r) with (shr_1 (shrn n r)).
    rewrite shr_1_m by now apply shrn_nonneg.
    rewrite IH, Nat2Z.inj_succ, Z.pow_succ_r, Z.div_div by lia.
    f_equal. lia.
Qed.

(** ** Located values: a mantissa with its round and sticky bits *)

Lemma rkey_shr_1 (r : shr_record) :
  0 <= shr_m r ->
  rkey (shr_1 r) = 2 * shr_m r + (if shr_r r || shr_s r then 1 else 0).
Proof.
  destruct r as [m r s]. unfold rkey. cbn [shr_m shr_r shr_s]. intros H.
  destruct m as [|[p|p|]|p]; try lia; destruct r, s;
    cbn [shr_1 shr_m shr_r shr_s orb];
    try rewrite (Pos2Z.inj_xI p); try rewrite (Pos2Z.inj_xO p); lia.
Qed.

Lemma shr_1_mono (a b : shr_record) :
  0 <= shr_m a -> rkey a <= rkey b -> rkey (shr_1 a) <= rkey (shr_1 b).
Proof.
  intros Ha H.
  assert (Hb : 0 <= shr_m b).
  { unfold rkey in H. revert H.
    destruct (shr_r a), (shr_s a), (shr_r b), (shr_s b); lia. }
  rewrite !rkey_shr_1 by assumption. unfold rkey in H. revert H.
  destruct (shr_r a), (shr_s a), (shr_r b), (shr_s b); cbn [orb]; lia.
Qed.

Lemma shrn_mono (n : nat) (a b : shr_record) :
  0 <= shr_m a -> rkey a <= rkey b -> rkey (shrn n a) <= rkey (shrn n b).
Proof.
  intros Ha H. induction n as [|n IH]; [exact H|].
  change (shrn (S n) a) with (shr_1 (shrn n a)).
  change (shrn (S n) b) with (shr_1 (shrn n b)).
  apply shr_1_mono; [now apply shrn_nonneg | exact IH].
Qed.

Lemma rne_bounds (r : shr_record) : shr_m r <= rne r <= shr_m r + 1.
Proof. apply round_nearest_even_bounds. Qed.

Lemma rne_mono (a b : shr_record) : rkey a <= rkey b -> rne a <= rne b.
Proof.
  intros H. pose proof (rne_bounds a). pose proof (rne_bounds b).
  destruct (Z.eq_dec (shr_m a) (shr_m b)) as [E|N].
  - destruct a as [m r s], b as [m' r' s']. cbn [shr_m] in E. subst m'.
    unfold rkey in H. unfold rne. cbn [shr_m shr_r shr_s] in *.
    destruct r, s, r', s';
      cbn [loc_of_shr_record round_nearest_even];
      try destruct (Z.even m); lia.
  - unfold rkey in H. revert H.
    destruct (shr_r a), (shr_s a), (shr_r b), (shr_s b); lia.
Qed.

(** ** What [binary_round_aux] computes *)

Lemma shr_fexp_shrn (m e : Z) (l : location) :
  e <= fexp prec emax (Zdigits2 m + e) ->
  shr_fexp prec emax m e l
  = (shrn (Z.to_nat (fexp prec emax (Zdigits2 m + e) - e))
          (shr_record_of_loc m l),
     fexp prec emax (Zdigits2 m + e)).
Proof.
  intros H. unfold shr_fexp. rewrite shr_shrn by lia. f_equal. lia.
Qed.

Lemma rounded_ok (m e : Z) (l : location) :
  0 <= m -> e <= fexp prec emax (Zdigits2 m + e) -> rounded_spec m e l.
Proof.
  intros Hm He.
  pose proof (Zdigits2_nonneg m) as Hd.
  set (E := fexp prec emax (Zdigits2 m + e)) in *.
  assert (HE : E = Z.max (Zdigits2 m + e - 24) (-149)) by reflexivity.
  set (r1 := shrn (Z.to_nat (E - e)) (shr_record_of_loc m l)).
  assert (Hm1 : shr_m r1 = m / 2 ^ (E - e)).
  { unfold r1. rewrite shrn_m by (rewrite shr_record_of_loc_m; lia).
    rewrite shr_record_of_loc_m, Z2Nat.id by lia. reflexivity. }
  assert (Hm1' : 0 <= shr_m r1)
    by (rewrite Hm1; apply Z.div_pos; [lia | apply Z.pow_pos_nonneg; lia]).
  assert (Hd1 : Zdigits2 (shr_m r1) = Z.max 0 (Zdigits2 m - (E - e)))
    by (rewrite Hm1; apply Zdigits2_div; lia).
  pose proof (rne_bounds r1) as Hb.
  pose proof (Zdigits2_succ_le (shr_m r1) (rne r1) Hm1' Hb) as Hd2.
  assert (Hlt1 : shr_m r1 < 2 ^ Zdigits2 (shr_m r1))
    by now apply Zdigits2_lt_pow.
  set (m2 := rne r1) in *.
  set (n2 := fexp prec emax (Zdigits2 m2 + E) - E).
  assert (Hn2 : n2 = Z.max (Zdigits2 m2 + E - 24) (-149) - E) by reflexivity.
  assert (N2 : n2 = 0 \/ (n2 = 1 /\ Zdigits2 (shr_m r1) = 24
                          /\ Zdigits2 m2 = 25)) by lia.
  assert (R : rounded m e l = (m2 / 2 ^ n2, E + n2)) by reflexivity.
  assert (M3 : (n2 = 0 /\ m2 / 2 ^ n2 = m2) \/
               (n2 = 1 /\ m2 / 2 ^ n2 = 2 ^ 23 /\ Zdigits2 (shr_m r1) = 24)).
  { destruct N2 as [->|(-> & D1 & D2)].
    - left. split; [reflexivity|]. now rewrite Z.div_1_r.
    - right. split; [reflexivity|]. split; [|assumption].
      rewrite D1 in Hlt1.
      assert (P2 : 0 < m2).
      { destruct (Z.eq_dec m2 0) as [Z0|]; [|lia].
        rewrite Z0 in D2. discriminate D2. }
      pose proof (Zdigits2_bounds m2 P2) as [L2 _]. rewrite D2 in L2.
      change (2 ^ (25 - 1)) with 16777216 in L2.
      change (2 ^ 24) with 16777216 in Hlt1.
      assert (m2 = 16777216) as -> by lia. reflexivity. }
  assert (NRM : -149 < E -> 2 ^ 23 <= shr_m r1).
  { intros HN. assert (D1 : Zdigits2 (shr_m r1) = 24) by lia.
    assert (P1 : 0 < shr_m r1).
    { destruct (Z.eq_dec (shr_m r1) 0) as [Z0|]; [|lia].
      rewrite Z0 in D1. discriminate D1. }
    pose proof (Zdigits2_bounds _ P1) as [L1 _]. now rewrite D1 in L1. }
  assert (POS : -149 < Zdigits2 m + e -> 0 < shr_m r1).
  { intros HP. destruct (Z.eq_dec (shr_m r1) 0) as [Z0|]; [|lia].
    rewrite Z0 in Hd1. cbn [Zdigits2] in Hd1. lia. }
  change (2 ^ 23) with 8388608 in *.
  constructor; fold E; fold r1; fold m2; rewrite ?R; cbn [fst snd].
  - rewrite <- Hm1. lia.
  - lia.
  - intros. destruct M3 as [[_ ->]|(? & _)]; [reflexivity | lia].
  - intros. destruct M3 as [[? _]|(_ & -> & _)]; [lia | reflexivity].
  - intros HN. specialize (NRM HN).
    destruct M3 as [[_ ->]|(_ & -> & _)]; lia.
  - destruct M3 as [[_ ->]|(_ & -> & _)]; lia.
  - intros HP. specialize (POS HP).
    destruct M3 as [[_ ->]|(_ & -> & _)]; lia.
  - intros P3. destruct M3 as [[Z2 ->]|(O2 & -> & _)].
    + rewrite Z2, Z.add_0_r. lia.
    + change (Zdigits2 8388608) with 24. rewrite fexp_eq. lia.
  - unfold n2. lia.
Qed.

Lemma bra_rounded (s : bool) (m e : Z) (l : location) :
  0 <= m -> e <= fexp prec emax (Zdigits2 m + e) ->
  binary_round_aux prec emax s m e l = fit s (rounded m e l).
Proof.
  intros Hm He.
  destruct (rounded_ok m e l Hm He) as [L X _ _ _ _ _ _ Y].
  unfold binary_round_aux. rewrite shr_fexp_shrn by assumption.
  set (E := fexp prec emax (Zdigits2 m + e)) in *.
  fold (rne (shrn (Z.to_nat (E - e)) (shr_record_of_loc m l))).
  set (m2 := rne (shrn (Z.to_nat (E - e)) (shr_record_of_loc m l))) in *.
  assert (P : 0 <= m / 2 ^ (E - e))
    by (apply Z.div_pos; [lia | apply Z.pow_pos_nonneg; lia]).
  rewrite shr_fexp_shrn by lia.
  rewrite shrn_m by (rewrite shr_record_of_loc_m; lia).
  rewrite shr_record_of_loc_m, Z2Nat.id by lia.
  unfold fit, rounded. cbn [fst snd]. fold E. fold m2.
  replace (E + (fexp prec emax (Zdigits2 m2 + E) - E))
    with (fexp prec emax (Zdigits2 m2 + E)) by lia.
  reflexivity.
Qed.

(** ** Rounding is monotone *)

Lemma fit_leb (p p' : Z * Z) :
  0 <= fst p -> 0 <= fst p' ->
  fst p = 0 \/
  (0 < fst p' /\ (snd p < snd p' \/ (snd p = snd p' /\ fst p <= fst p'))) ->
  (fit false p <=? fit false p')%f32 = true.
Proof.
  destruct p as [m E], p' as [m' E']. unfold fit. cbn [fst snd].
  intros Hm Hm' H.
  destruct m as [|m|m]; try lia.
  - destruct m' as [|m'|m']; try lia; [reflexivity|].
    destruct (E' <=? emax - prec); reflexivity.
  - destruct m' as [|m'|m']; try lia.
    destruct (E <=? emax - prec) eqn:F, (E' <=? emax - prec) eqn:F';
      try reflexivity.
    + unfold leb, SFleb. cbn [SFcompare].
      destruct (Z.compare_spec E E') as [Heq|Hlt|Hgt]; [|reflexivity|lia].
      change (Pos.compare_cont Eq m m') with (Pos.compare m m').
      destruct (Pos.compare_spec m m'); try reflexivity. lia.
    + apply Z.leb_le in F'. apply Z.leb_gt in F. lia.
Qed.

Lemma rkey_of_loc_le (m m' : Z) (l l' : location) :
  rkey (shr_record_of_loc m l) <= rkey (shr_record_of_loc m' l') -> m <= m'.
Proof.
  destruct l as [|[]], l' as [|[]]; unfold rkey;
    cbn [shr_record_of_loc shr_m shr_r shr_s]; lia.
Qed.

Lemma rounded_mono (m m' e : Z) (l l' : location) :
  0 <= m ->
  e <= fexp prec emax (Zdigits2 m + e) ->
  e <= fexp prec emax (Zdigits2 m' + e) ->
  rkey (shr_record_of_loc m l) <= rkey (shr_record_of_loc m' l') ->
  (fit false (rounded m e l) <=? fit false (rounded m' e l'))%f32 = true.
Proof.
  intros Hm He He' K.
  pose proof (rkey_of_loc_le _ _ _ _ K) as Hmm.
  assert (Hm' : 0 <= m') by lia.
  pose proof (Zdigits2_le m m' ltac:(lia)) as Hdd.
  destruct (rounded_ok m e l Hm He) as [L X Sm C N P _ _ Y].
  destruct (rounded_ok m' e l' Hm' He') as [L' X' Sm' C' N' P' _ _ Y'].
  set (E := fexp prec emax (Zdigits2 m + e)) in *.
  set (E' := fexp prec emax (Zdigits2 m' + e)) in *.
  assert (HE : E = Z.max (Zdigits2 m + e - 24) (-149)) by reflexivity.
  assert (HE' : E' = Z.max (Zdigits2 m' + e - 24) (-149)) by reflexivity.
  change (2 ^ 23) with 8388608 in *.
  apply fit_leb; try assumption.
  destruct (Z.eq_dec (fst (rounded m e l)) 0) as [Z0|NZ]; [now left | right].
  destruct (Z.eq_dec E E') as [EE|NE].
  - set (r1 := shrn (Z.to_nat (E - e)) (shr_record_of_loc m l)) in *.
    set (r1' := shrn (Z.to_nat (E' - e)) (shr_record_of_loc m' l')) in *.
    assert (K1 : rkey r1 <= rkey r1').
    { unfold r1, r1'. rewrite <- EE. apply shrn_mono; [|assumption].
      rewrite shr_record_of_loc_m. lia. }
    pose proof (rne_mono _ _ K1) as M2.
    assert (P2 : 0 <= rne r1).
    { assert (0 <= m / 2 ^ (E - e))
        by (apply Z.div_pos; [lia | apply Z.pow_pos_nonneg; lia]). lia. }
    pose proof (Zdigits2_le (rne r1) (rne r1') ltac:(lia)) as D2.
    rewrite fexp_eq in Y, Y'.
    assert (X3 : snd (rounded m e l) <= snd (rounded m' e l')) by lia.
    destruct (Z.eq_dec (snd (rounded m e l)) E) as [A|A];
      destruct (Z.eq_dec (snd (rounded m' e l')) E') as [A'|A'];
      try specialize (Sm A); try specialize (Sm' A');
      try specialize (C ltac:(lia)); try specialize (C' ltac:(lia)); lia.
  - assert (Hlt : E < E') by lia.
    specialize (N' ltac:(lia)).
    destruct (Z.eq_dec (snd (rounded m e l)) E) as [A|A];
      try specialize (C ltac:(lia)); lia.
Qed.

(** ** Locating a quotient *)

Lemma new_location_eq (D r : Z) :
  0 < D -> 0 <= r < D ->
  new_location D r
  = if r =? 0 then loc_Exact else loc_Inexact (2 * r ?= D).
Proof.
  intros HD Hr. unfold new_location, new_location_even, new_location_odd.
  destruct (Z.even D) eqn:Ev; destruct (r =? 0) eqn:Hz; try reflexivity.
  f_equal.
  assert (Od : Z.odd D = true) by (rewrite <- Z.negb_even, Ev; reflexivity).
  apply Z.odd_spec in Od. destruct Od as [k Hk].
  destruct (Z.compare_spec (2 * r + 1) D), (Z.compare_spec (2 * r) D);
    try reflexivity; lia.
Qed.

Lemma rkey_inj (a b : shr_record) : rkey a = rkey b -> a = b.
Proof.
  destruct a as [m r s], b as [m' r' s']. unfold rkey.
  cbn [shr_m shr_r shr_s]. intros H.
  destruct r, s, r', s'; try lia; f_equal; lia.
Qed.

Lemma rkey_qrec (N D : Z) :
  0 < D -> rkey (qrec N D) = 4 * (N / D) + qcode D (N mod D).
Proof.
  intros HD. unfold qrec, qcode.
  rewrite new_location_eq by (try apply Z.mod_pos_bound; lia).
  destruct (N mod D =? 0); [unfold rkey; cbn; lia|].
  destruct (2 * (N mod D) ?= D); unfold rkey;
    cbn [shr_record_of_loc shr_m shr_r shr_s]; lia.
Qed.

Lemma qcode_bounds (D r : Z) : 0 <= qcode D r <= 3.
Proof.
  unfold qcode. destruct (r =? 0); [lia|]. destruct (2 * r ?= D); lia.
Qed.

Lemma qrec_mono (N N' D : Z) :
  0 < D -> N <= N' -> rkey (qrec N D) <= rkey (qrec N' D).
Proof.
  intros HD H. rewrite !rkey_qrec by assumption.
  pose proof (Z.div_le_mono N N' D HD H) as Hq.
  pose proof (qcode_bounds D (N mod D)). pose proof (qcode_bounds D (N' mod D)).
  destruct (Z.eq_dec (N / D) (N' / D)) as [E|NE]; [|lia].
  assert (Hr : N mod D <= N' mod D).
  { rewrite !Z.mod_eq by lia. rewrite E.
    apply Z.sub_le_mono_r. assumption. }
  pose proof (Z.mod_pos_bound N D HD). pose proof (Z.mod_pos_bound N' D HD).
  rewrite E. unfold qcode.
  destruct (Z.eqb_spec (N mod D) 0), (Z.eqb_spec (N' mod D) 0); try lia;
    destruct (Z.compare_spec (2 * (N mod D)) D);
    try destruct (Z.compare_spec (2 * (N' mod D)) D); lia.
Qed.

Lemma rkey_shr_1_code (r : shr_record) :
  0 <= shr_m r ->
  rkey (shr_1 r)
  = 2 * shr_m r + (if rkey r =? 4 * shr_m r then 0 else 1).
Proof.
  intros H. rewrite rkey_shr_1 by assumption. unfold rkey.
  destruct (shr_r r), (shr_s r); cbn [orb];
    match goal with
    | |- context [?a =? ?b] => destruct (Z.eqb_spec a b)
    end; lia.
Qed.

Ltac Zcases :=
  repeat match goal with
         | |- context [?a =? ?b] => destruct (Z.eqb_spec a b)
         | |- context [?a ?= ?b] => destruct (Z.compare_spec a b)
         end.

(** Doubling the numerator and shifting once is the identity. *)

Lemma shr_1_qrec (N D : Z) :
  0 <= N -> 0 < D -> shr_1 (qrec (2 * N) D) = qrec N D.
Proof.
  intros HN HD. apply rkey_inj.
  assert (Hq : 0 <= 2 * N / D) by (apply Z.div_pos; lia).
  rewrite rkey_shr_1_code by (unfold qrec; rewrite shr_record_of_loc_m; lia).
  unfold qrec at 1 3. rewrite shr_record_of_loc_m.
  rewrite !rkey_qrec by assumption.
  pose proof (Z.div_mod N D ltac:(lia)) as DM.
  pose proof (Z.mod_pos_bound N D HD) as RB.
  set (q := N / D) in *. set (r := N mod D) in *.
  destruct (Z_lt_le_dec (2 * r) D) as [Hlt|Hge].
  - assert (Q2 : 2 * N / D = 2 * q)
      by (symmetry; apply (Z.div_unique _ _ _ (2 * r)); lia).
    assert (R2 : (2 * N) mod D = 2 * r)
      by (symmetry; apply (Z.mod_unique _ _ (2 * q)); lia).
    rewrite Q2, R2. unfold qcode.
    destruct (Z.eqb_spec (2 * r) 0), (Z.eqb_spec r 0); try lia;
      destruct (Z.compare_spec (2 * (2 * r)) D);
      destruct (Z.compare_spec (2 * r) D); try lia; Zcases; lia.
  - assert (Q2 : 2 * N / D = 2 * q + 1)
      by (symmetry; apply (Z.div_unique _ _ _ (2 * r - D)); lia).
    assert (R2 : (2 * N) mod D = 2 * r - D)
      by (symmetry; apply (Z.mod_unique _ _ (2 * q + 1)); lia).
    rewrite Q2, R2. unfold qcode.
    destruct (Z.eqb_spec (2 * r - D) 0), (Z.eqb_spec r 0); try lia;
      destruct (Z.compare_spec (2 * (2 * r - D)) D);
      destruct (Z.compare_spec (2 * r) D); try lia; Zcases; lia.
Qed.

(** ** A quotient can be located at any finer exponent *)

Lemma Zdigits2_double (q m : Z) :
  0 < q -> 2 * q <= m <= 2 * q + 1 -> Zdigits2 m = Zdigits2 q + 1.
Proof.
  intros Hq Hm. pose proof (Zdigits2_bounds q Hq) as [L U].
  pose proof (Zdigits2_nonneg q).
  assert (0 < Zdigits2 q).
  { destruct q; try lia. reflexivity. }
  apply Zdigits2_unique; [|lia].
  replace (Zdigits2 q + 1 - 1) with (Z.succ (Zdigits2 q - 1)) by lia.
  replace (Zdigits2 q + 1) with (Z.succ (Zdigits2 q)) by lia.
  rewrite !Z.pow_succ_r by lia. lia.
Qed.

Lemma rounded_refine_1 (N D e : Z) :
  0 <= N -> 0 < D -> e <= fexp prec emax (Zdigits2 (N / D) + e) ->
  fexp prec emax (Zdigits2 (2 * N / D) + (e - 1))
  = fexp prec emax (Zdigits2 (N / D) + e) /\
  rounded (2 * N / D) (e - 1) (new_location D ((2 * N) mod D))
  = rounded (N / D) e (new_location D (N mod D)).
Proof.
  intros HN HD He.
  assert (Hq : 0 <= N / D) by (apply Z.div_pos; lia).
  assert (H2 : 2 * (N / D) <= 2 * N / D <= 2 * (N / D) + 1).
  { pose proof (Z.div_mod N D ltac:(lia)) as DM.
    pose proof (Z.mod_pos_bound N D HD) as RB.
    split.
    - apply Z.div_le_lower_bound; [assumption|]. nia.
    - assert (2 * N / D < 2 * (N / D) + 2); [|lia].
      apply Z.div_lt_upper_bound; [assumption|]. nia. }
  assert (EE : fexp prec emax (Zdigits2 (2 * N / D) + (e - 1))
               = fexp prec emax (Zdigits2 (N / D) + e)).
  { destruct (Z.eq_dec (N / D) 0) as [Z0|NZ].
    - rewrite Z0 in *. cbn [Zdigits2] in *. rewrite fexp_eq in He.
      assert (Hd : 0 <= Zdigits2 (2 * N / D) <= 1).
      { split; [apply Zdigits2_nonneg|].
        assert (2 * N / D = 0 \/ 2 * N / D = 1) as [->| ->] by lia;
          cbn; lia. }
      rewrite !fexp_eq. lia.
    - rewrite (Zdigits2_double (N / D)) by lia. f_equal. lia. }
  split; [exact EE|].
  set (E := fexp prec emax (Zdigits2 (N / D) + e)) in *.
  assert (SH : shrn (Z.to_nat (E - (e - 1)))
                    (shr_record_of_loc (2 * N / D)
                       (new_location D ((2 * N) mod D)))
               = shrn (Z.to_nat (E - e))
                      (shr_record_of_loc (N / D) (new_location D (N mod D)))).
  { replace (Z.to_nat (E - (e - 1))) with (S (Z.to_nat (E - e))) by lia.
    unfold shrn. rewrite Nat.iter_succ_r.
    fold (qrec (2 * N) D). fold (qrec N D). now rewrite shr_1_qrec. }
  unfold rounded. cbv zeta. fold E. rewrite EE, SH. reflexivity.
Qed.

Lemma rounded_refine (k : nat) (N D e : Z) :
  0 <= N -> 0 < D -> e <= fexp prec emax (Zdigits2 (N / D) + e) ->
  fexp prec emax (Zdigits2 (2 ^ Z.of_nat k * N / D) + (e - Z.of_nat k))
  = fexp prec emax (Zdigits2 (N / D) + e) /\
  rounded (2 ^ Z.of_nat k * N / D) (e - Z.of_nat k)
          (new_location D ((2 ^ Z.of_nat k * N) mod D))
  = rounded (N / D) e (new_location D (N mod D)).
Proof.
  intros HN HD He. induction k as [|k [IHe IHr]].
  - cbn [Z.of_nat]. rewrite Z.pow_0_r, Z.mul_1_l, Z.sub_0_r. split; reflexivity.
  - rewrite Nat2Z.inj_succ, Z.pow_succ_r by lia.
    replace (e - Z.succ (Z.of_nat k)) with (e - Z.of_nat k - 1) by lia.
    rewrite <- Z.mul_assoc.
    assert (P : 0 <= 2 ^ Z.of_nat k * N)
      by (apply Z.mul_nonneg_nonneg; [apply Z.pow_nonneg|]; lia).
    destruct (rounded_refine_1 (2 ^ Z.of_nat k * N) D (e - Z.of_nat k) P HD)
      as [E1 R1]; [lia|].
    split; congruence.
Qed.

(** ** Division *)

Lemma SFdiv_core_binary_eq (mx : positive) (ex : Z) (my : positive) (ey : Z) :
  let e' := Z.min (fexp prec emax (digits mx + ex - (digits my + ey)))
                  (ex - ey) in
  let N := Zpos mx * 2 ^ (ex - ey - e') in
  SFdiv_core_binary prec emax (Zpos mx) ex (Zpos my) ey
  = (N / Zpos my, e', new_location (Zpos my) (N mod Zpos my)) /\
  e' <= fexp prec emax (Zdigits2 (N / Zpos my) + e').
Proof.
  intros e' N. split.
  - unfold SFdiv_core_binary. cbn [Zdigits2]. fold (digits mx) (digits my).
    fold e'.
    assert (Hs : 0 <= ex - ey - e') by (unfold e'; lia).
    assert (HN : match ex - ey - e' with
                 | 0 => Zpos mx
                 | Zpos _ => Z.shiftl (Zpos mx) (ex - ey - e')
                 | Zneg _ => 0
                 end = N).
    { unfold N. rewrite <- Z.shiftl_mul_pow2 by lia.
      destruct (ex - ey - e') as [|s|s]; try lia; reflexivity. }
    rewrite HN. unfold Z.div, Z.modulo.
    destruct (Z.div_eucl N (Zpos my)) as [q r]. reflexivity.
  - assert (Hs : 0 <= ex - ey - e') by (unfold e'; lia).
    assert (P : 0 < 2 ^ (ex - ey - e')) by (apply Z.pow_pos_nonneg; lia).
    assert (HN : 0 < N) by (unfold N; lia).
    pose proof (digits_bounds mx) as [Lx Ux].
    pose proof (digits_bounds my) as [Ly Uy].
    pose proof (digits_pos mx). pose proof (digits_pos my).
    assert (Hd : digits mx + (ex - ey - e') - digits my
                 <= Zdigits2 (N / Zpos my)).
    { pose proof (Zdigits2_nonneg (N / Zpos my)).
      destruct (Z_lt_le_dec 0 (digits mx + (ex - ey - e') - digits my))
        as [Hpos|]; [|lia].
      set (t := digits mx + (ex - ey - e') - digits my - 1).
      assert (Hq : 2 ^ t <= N / Zpos my).
      { apply Z.div_le_lower_bound; [lia|].
        assert (Zpos my * 2 ^ t <= 2 ^ digits my * 2 ^ t)
          by (apply Z.mul_le_mono_nonneg_r; [apply Z.pow_nonneg|]; lia).
        assert (2 ^ digits my * 2 ^ t
                = 2 ^ (digits mx - 1) * 2 ^ (ex - ey - e')).
        { rewrite <- !Z.pow_add_r by (unfold t; lia). f_equal.
          unfold t. lia. }
        assert (2 ^ (digits mx - 1) * 2 ^ (ex - ey - e') <= N)
          by (unfold N; apply Z.mul_le_mono_nonneg_r; lia).
        lia. }
      assert (P2 : 0 < 2 ^ t) by (apply Z.pow_pos_nonneg; unfold t; lia).
      destruct (Z_lt_le_dec (Zdigits2 (N / Zpos my)) (t + 1)) as [Hlt|];
        [|unfold t in *; lia].
      pose proof (Zdigits2_lt_pow (N / Zpos my) ltac:(lia)).
      assert (2 ^ Zdigits2 (N / Zpos my) <= 2 ^ t)
        by (apply Z.pow_le_mono_r; lia).
      lia. }
    rewrite fexp_eq. unfold e' in *. rewrite fexp_eq in *. lia.
Qed.

Lemma leb_finite_cases (mx : positive) (ex : Z) (my : positive) (ey : Z) :
  (S754_finite false mx ex <=? S754_finite false my ey)%f32 = true ->
  ex < ey \/ (ex = ey /\ Zpos mx <= Zpos my).
Proof.
  unfold leb, SFleb. cbn [SFcompare].
  destruct (Z.compare_spec ex ey) as [E|L|G]; [|now left|discriminate].
  change (Pos.compare_cont Eq mx my) with (Pos.compare mx my).
  destruct (Pos.compare_spec mx my); try discriminate; intros _; right; lia.
Qed.

Lemma canonical_digits (m : positive) (e : Z) :
  bounded prec emax m e = true ->
  -149 <= e /\ digits m <= 24 /\ (-149 < e -> digits m = 24).
Proof.
  intros B. destruct (bounded_canonical _ _ B) as [C _].
  rewrite fexp_eq in C. lia.
Qed.

Lemma scaled_le (mx : positive) (ex : Z) (my : positive) (ey c : Z) :
  bounded prec emax mx ex = true -> bounded prec emax my ey = true ->
  (S754_finite false mx ex <=? S754_finite false my ey)%f32 = true ->
  c <= ex -> c <= ey ->
  Zpos mx * 2 ^ (ex - c) <= Zpos my * 2 ^ (ey - c).
Proof.
  intros Bx By L Hx Hy.
  destruct (leb_finite_cases _ _ _ _ L) as [Hlt|[-> Hm]].
  - destruct (canonical_digits _ _ Bx) as (Ex & Dx & _).
    destruct (canonical_digits _ _ By) as (_ & _ & Dy).
    specialize (Dy ltac:(lia)).
    pose proof (digits_bounds mx) as [_ Ux].
    pose proof (digits_bounds my) as [Ly _]. rewrite Dy in Ly.
    assert (U24 : 2 ^ digits mx <= 2 ^ 24) by (apply Z.pow_le_mono_r; lia).
    change (2 ^ (24 - 1)) with 8388608 in Ly.
    change (2 ^ 24) with 16777216 in U24.
    replace (ey - c) with ((ex - c) + (ey - ex)) by lia.
    rewrite Z.pow_add_r by lia.
    assert (P : 0 < 2 ^ (ex - c)) by (apply Z.pow_pos_nonneg; lia).
    assert (Q : 2 ^ 1 <= 2 ^ (ey - ex)) by (apply Z.pow_le_mono_r; lia).
    change (2 ^ 1) with 2 in Q.
    set (X := 2 ^ (ex - c)) in *. set (Y := 2 ^ (ey - ex)) in *.
    assert (A1 : Zpos mx * X <= 16777216 * X)
      by (apply Z.mul_le_mono_nonneg_r; lia).
    assert (A2 : X * 2 <= X * Y) by (apply Z.mul_le_mono_nonneg_l; lia).
    assert (A3 : 8388608 * (X * 2) <= Zpos my * (X * Y))
      by (apply Z.mul_le_mono_nonneg; lia).
    lia.
  - apply Z.mul_le_mono_nonneg_r; [apply Z.pow_nonneg; lia | assumption].
Qed.

Lemma div_finite_mono (mx : positive) (ex : Z) (my : positive) (ey : Z)
      (mT : positive) (eT : Z) :
  bounded prec emax mx ex = true -> bounded prec emax my ey = true ->
  (S754_finite false mx ex <=? S754_finite false my ey)%f32 = true ->
  (S754_finite false mx ex / S754_finite false mT eT
   <=? S754_finite false my ey / S754_finite false mT eT)%f32 = true.
Proof.
  intros Bx By L. unfold div. cbn [SFdiv xorb].
  destruct (SFdiv_core_binary_eq mx ex mT eT) as [C1 P1].
  destruct (SFdiv_core_binary_eq my ey mT eT) as [C2 P2].
  cbv zeta in C1, C2, P1, P2. rewrite C1, C2. clear C1 C2.
  set (e1 := Z.min (fexp prec emax (digits mx + ex - (digits mT + eT)))
                   (ex - eT)) in *.
  set (e2 := Z.min (fexp prec emax (digits my + ey - (digits mT + eT)))
                   (ey - eT)) in *.
  set (N1 := Zpos mx * 2 ^ (ex - eT - e1)) in *.
  set (N2 := Zpos my * 2 ^ (ey - eT - e2)) in *.
  set (D := Zpos mT) in *.
  assert (S1 : 0 <= ex - eT - e1) by (unfold e1; lia).
  assert (S2 : 0 <= ey - eT - e2) by (unfold e2; lia).
  assert (HN1 : 0 <= N1)
    by (unfold N1; apply Z.mul_nonneg_nonneg; [|apply Z.pow_nonneg]; lia).
  assert (HN2 : 0 <= N2)
    by (unfold N2; apply Z.mul_nonneg_nonneg; [|apply Z.pow_nonneg]; lia).
  assert (HD : 0 < D) by (unfold D; lia).
  rewrite !bra_rounded by (try apply Z.div_pos; lia).
  set (e0 := Z.min e1 e2).
  destruct (rounded_refine (Z.to_nat (e1 - e0)) N1 D e1 HN1 HD P1)
    as [E1 R1].
  destruct (rounded_refine (Z.to_nat (e2 - e0)) N2 D e2 HN2 HD P2)
    as [E2 R2].
  rewrite <- R1, <- R2.
  rewrite !Z2Nat.id in * by (unfold e0; lia).
  replace (e1 - (e1 - e0)) with e0 in * by lia.
  replace (e2 - (e2 - e0)) with e0 in * by lia.
  assert (K1 : 2 ^ (e1 - e0) * N1 = Zpos mx * 2 ^ (ex - (eT + e0))).
  { unfold N1. rewrite Z.mul_comm, <- Z.mul_assoc, <- Z.pow_add_r
      by (unfold e0; lia). f_equal. f_equal. lia. }
  assert (K2 : 2 ^ (e2 - e0) * N2 = Zpos my * 2 ^ (ey - (eT + e0))).
  { unfold N2. rewrite Z.mul_comm, <- Z.mul_assoc, <- Z.pow_add_r
      by (unfold e0; lia). f_equal. f_equal. lia. }
  assert (LE : 2 ^ (e1 - e0) * N1 <= 2 ^ (e2 - e0) * N2).
  { rewrite K1, K2. apply scaled_le; try assumption; unfold e0; lia. }
  assert (G1 : 0 <= 2 ^ (e1 - e0) * N1)
    by (apply Z.mul_nonneg_nonneg; [apply Z.pow_nonneg|]; lia).
  apply rounded_mono.
  - apply Z.div_pos; lia.
  - rewrite E1. unfold e0. lia.
  - rewrite E2. unfold e0. lia.
  - fold (qrec (2 ^ (e1 - e0) * N1) D). fold (qrec (2 ^ (e2 - e0) * N2) D).
    now apply qrec_mono.
Qed.

(** ** Signs *)

Lemma shr_nonneg (r : shr_record) (e n : Z) :
  0 <= shr_m r -> 0 <= shr_m (fst (shr r e n)).
Proof.
  intros H. unfold shr. destruct n as [|p|p]; cbn [fst]; try assumption.
  rewrite iter_pos_nat. now apply shrn_nonneg.
Qed.

Lemma bra_nonneg (m e : Z) (l : location) :
  0 <= m -> nonneg (binary_round_aux prec emax false m e l) = true.
Proof.
  intros Hm. unfold binary_round_aux, shr_fexp.
  pose proof (shr_nonneg (shr_record_of_loc m l) e
                (fexp prec emax (Zdigits2 m + e) - e)) as H1.
  rewrite shr_record_of_loc_m in H1. specialize (H1 Hm).
  destruct (shr (shr_record_of_loc m l) e _) as [mrs' e']. cbn [fst] in H1.
  pose proof (rne_bounds mrs') as Hb. unfold rne in Hb.
  set (m2 := round_nearest_even (shr_m mrs') (loc_of_shr_record mrs')) in *.
  pose proof (shr_nonneg (shr_record_of_loc m2 loc_Exact) e'
                (fexp prec emax (Zdigits2 m2 + e') - e')) as H2.
  rewrite shr_record_of_loc_m in H2. specialize (H2 ltac:(lia)).
  destruct (shr (shr_record_of_loc m2 loc_Exact) e' _) as [mrs'' e''].
  cbn [fst] in H2.
  destruct (shr_m mrs'') as [|p|p]; try lia; try reflexivity.
  destruct (e'' <=? emax - prec); reflexivity.
Qed.

Lemma mul_nonneg (a b : float) :
  nonneg a = true -> nonneg b = true ->
  is_finite a = true -> is_finite b = true ->
  nonneg (a * b)%f32 = true.
Proof.
  intros Pa Pb Fa Fb.
  destruct a as [sa|sa| |[] ma ea]; try discriminate;
    destruct b as [sb|sb| |[] mb eb]; try discriminate;
    try (destruct sa; reflexivity); try (destruct sb; reflexivity);
    try (destruct sa, sb; reflexivity).
  unfold mul. cbn [SFmul xorb]. apply bra_nonneg. lia.
Qed.

Lemma mul_nonneg_finite_pos (a : float) (m : positive) (e : Z) :
  nonneg a = true -> nonneg (a * S754_finite false m e)%f32 = true.
Proof.
  intros Pa.
  destruct a as [sa|[]| |[] ma ea]; try discriminate;
    try (destruct sa; reflexivity); try reflexivity.
  unfold mul. cbn [SFmul xorb]. apply bra_nonneg. lia.
Qed.

(** The conversion of a positive [int] is a positive finite float. *)

Lemma of_Z_pos (n : Z) :
  0 < n <= 2147483647 ->
  exists m e, of_Z n = S754_finite false m e /\ bounded prec emax m e = true.
Proof.
  intros Hn. destruct n as [|p|p]; try lia.
  unfold of_Z. cbn [binary_normalize]. unfold binary_round.
  fold (digits p).
  assert (Hd : 1 <= digits p <= 31).
  { pose proof (digits_pos p). split; [lia|].
    pose proof (digits_bounds p) as [L _].
    destruct (Z_lt_le_dec 31 (digits p)) as [Hbig|]; [|lia].
    assert (2 ^ 31 <= 2 ^ (digits p - 1)) by (apply Z.pow_le_mono_r; lia).
    change (2 ^ 31) with 2147483648 in *. lia. }
  set (E := fexp prec emax (digits p + 0)) in *.
  assert (HE : E = Z.max (digits p + 0 - 24) (-149)) by reflexivity.
  assert (Hz : exists mz ez,
             shl_align p 0 E = (mz, ez) /\
             ez <= fexp prec emax (Zdigits2 (Zpos mz) + ez) /\
             -149 < Zdigits2 (Zpos mz) + ez /\
             fexp prec emax (Zdigits2 (Zpos mz) + ez) <= 7).
  { destruct (Z_le_gt_dec 0 E) as [Hle|Hgt].
    - exists p, 0. rewrite shl_align_id by lia.
      cbn [Zdigits2]. fold (digits p). rewrite !fexp_eq. repeat split; lia.
    - pose proof (shl_align_fst p 0 E ltac:(lia)) as F.
      assert (S : snd (shl_align p 0 E) = E).
      { unfold shl_align. destruct (E - 0) eqn:X; try lia. reflexivity. }
      destruct (shl_align p 0 E) as [mz ez]. cbn [fst snd] in F, S. subst ez.
      exists mz, E. split; [reflexivity|].
      pose proof (digits_shl mz p (0 - E) ltac:(lia) F) as Dz.
      cbn [Zdigits2]. fold (digits mz). rewrite Dz, !fexp_eq. lia. }
  destruct Hz as (mz & ez & -> & P1 & P2 & P3).
  rewrite bra_rounded by lia.
  destruct (rounded_ok (Zpos mz) ez loc_Exact ltac:(lia) P1)
    as [_ X _ _ _ _ P Cn _].
  specialize (P P2). specialize (Cn P). unfold fit.
  destruct (fst (rounded (Zpos mz) ez loc_Exact)) as [|q|q]; try lia.
  assert (Hov : (snd (rounded (Zpos mz) ez loc_Exact) <=? emax - prec) = true)
    by (apply Z.leb_le; change (emax - prec) with 104; lia).
  rewrite Hov. do 2 eexists. split; [reflexivity|].
  unfold bounded, canonical_mantissa. rewrite Hov, andb_true_r.
  apply Z.eqb_eq. exact Cn.
Qed.

Lemma zero_leb (s : bool) (a : float) :
  nonneg a = true -> (S754_zero s <=? a)%f32 = true.
Proof. destruct a as [sa|[]| |[] m e]; try discriminate; reflexivity. Qed.

Lemma leb_infinity (a : float) :
  nonneg a = true -> (a <=? S754_infinity false)%f32 = true.
Proof. destruct a as [sa|[]| |[] m e]; try discriminate; reflexivity. Qed.

Lemma div_finite_nonneg (mx : positive) (ex : Z) (mT : positive) (eT : Z) :
  nonneg (S754_finite false mx ex / S754_finite false mT eT)%f32 = true.
Proof.
  unfold div. cbn [SFdiv xorb].
  destruct (SFdiv_core_binary_eq mx ex mT eT) as [C _]. cbv zeta in C.
  rewrite C. apply bra_nonneg. apply Z.div_pos; [|lia].
  apply Z.mul_nonneg_nonneg; [lia | apply Z.pow_nonneg; lia].
Qed.

(** Division by a positive finite float is monotone on non-negative
    floats. *)

Lemma div_mono (x y t : float) :
  valid x = true -> valid y = true -> nonneg x = true ->
  (x <=? y)%f32 = true ->
  (zero <? t)%f32 = true -> is_finite t = true ->
  (x / t <=? y / t)%f32 = true.
Proof.
  intros Vx Vy Px L Pt Ft.
  destruct t as [st|st| |[] mT eT]; try discriminate.
  destruct x as [sx|[]| |[] mx ex]; try discriminate;
    destruct y as [sy|[]| |[] my ey]; try discriminate;
    try reflexivity.
  - apply zero_leb. destruct sx; apply div_finite_nonneg.
  - apply leb_infinity, div_finite_nonneg.
  - now apply div_finite_mono.
Qed.

Lemma div_self (m : positive) (e : Z) :
  (S754_finite false m e / S754_finite false m e)%f32 = one.
Proof.
  unfold div. cbn [SFdiv xorb].
  destruct (SFdiv_core_binary_eq m e m e) as [C _]. cbv zeta in C.
  rewrite C.
  replace (digits m + e - (digits m + e)) with 0 by lia.
  replace (e - e) with 0 by lia.
  change (Z.min (fexp prec emax 0) 0) with (-24).
  change (0 - -24) with 24.
  rewrite (Z.mul_comm (Zpos m)), Z.div_mul, Z.mod_mul by lia.
  rewrite new_location_eq by lia. reflexivity.
Qed.

(** ** Addition of non-negative floats *)

Lemma add_finite_nonneg (mx : positive) (ex : Z) (my : positive) (ey : Z) :
  bounded prec emax mx ex = true ->
  let x := S754_finite false mx ex in
  let y := S754_finite false my ey in
  (x <=? x + y)%f32 = true /\ valid (x + y)%f32 = true /\
  nonneg (x + y)%f32 = true.
Proof.
  intros Bx x y.
  destruct (canonical_digits _ _ Bx) as (Ex & Dx & _).
  destruct (bounded_canonical _ _ Bx) as [Cx _]. rewrite fexp_eq in Cx.
  unfold add, x, y. cbn [SFadd cond_Zopp].
  set (ez := Z.min ex ey).
  pose proof (shl_align_fst mx ex ez ltac:(lia)) as Ha.
  set (a := fst (shl_align mx ex ez)) in *.
  set (b := fst (shl_align my ey ez)) in *.
  change (Zpos a + Zpos b) with (Zpos (a + b)).
  cbn [binary_normalize]. unfold binary_round.
  pose proof (digits_shl a mx (ex - ez) ltac:(lia) Ha) as Da.
  assert (Dab : digits a <= digits (a + b)) by (apply digits_le; lia).
  pose proof (digits_pos mx) as Pmx.
  fold (digits (a + b)).
  assert (Ee : ex <= fexp prec emax (digits (a + b) + ez))
    by (rewrite fexp_eq; lia).
  rewrite shl_align_id by lia.
  assert (He : ez <= fexp prec emax (Zdigits2 (Zpos (a + b)) + ez))
    by (cbn [Zdigits2]; fold (digits (a + b)); lia).
  rewrite bra_rounded by lia.
  destruct (rounded_ok (Zpos (a + b)) ez loc_Exact ltac:(lia) He)
    as [Lo X Sm _ _ _ P Cn _].
  cbn [Zdigits2] in *. fold (digits (a + b)) in *.
  specialize (P ltac:(lia)).
  set (E := fexp prec emax (digits (a + b) + ez)) in *.
  unfold fit.
  destruct (fst (rounded (Zpos (a + b)) ez loc_Exact)) as [|m3|m3] eqn:F3;
    try lia.
  set (E3 := snd (rounded (Zpos (a + b)) ez loc_Exact)) in *.
  destruct (E3 <=? emax - prec) eqn:Hov; [|repeat split; reflexivity].
  repeat split.
  - unfold leb, SFleb. cbn [SFcompare].
    destruct (Z.compare_spec ex E3) as [Heq|Hlt|Hgt]; [|reflexivity|lia].
    assert (Hm : Zpos mx <= Zpos m3).
    { assert (HE : E3 = E) by lia. specialize (Sm HE).
      assert (HEx : E = ex) by lia. rewrite HEx in Lo, Sm.
      assert (P2 : 0 < 2 ^ (ex - ez)) by (apply Z.pow_pos_nonneg; lia).
      assert (Zpos mx <= Zpos (a + b) / 2 ^ (ex - ez)).
      { apply Z.div_le_lower_bound; [assumption|]. lia. }
      lia. }
    change (Pos.compare_cont Eq mx m3) with (Pos.compare mx m3).
    destruct (Pos.compare_spec mx m3); try reflexivity. lia.
  - unfold valid. cbn [valid_binary]. unfold bounded, canonical_mantissa.
    rewrite Hov, andb_true_r. apply Z.eqb_eq.
    specialize (Cn ltac:(lia)). cbn [Zdigits2] in Cn. exact Cn.
Qed.

Lemma add_nonneg (x y : float) :
  valid x = true -> valid y = true -> nonneg x = true -> nonneg y = true ->
  (x <=? x + y)%f32 = true /\ valid (x + y)%f32 = true /\
  nonneg (x + y)%f32 = true.
Proof.
  intros Vx Vy Px Py.
  destruct x as [sx|sx| |sx mx ex], y as [sy|sy| |sy my ey];
    try discriminate;
    try (destruct sx; try discriminate);
    try (destruct sy; try discriminate);
    try (repeat split; reflexivity);
    try (repeat split; (assumption || (apply leb_refl; reflexivity))).
  now apply add_finite_nonneg.
Qed.

(** ** Validity of products and conversions *)

Lemma bra_valid (s : bool) (m e : Z) (l : location) :
  0 <= m -> e <= fexp prec emax (Zdigits2 m + e) ->
  valid (binary_round_aux prec emax s m e l) = true.
Proof.
  intros Hm He. rewrite bra_rounded by assumption.
  destruct (rounded_ok m e l Hm He) as [_ _ _ _ _ _ _ Cn _].
  unfold fit.
  destruct (fst (rounded m e l)) as [|q|q]; try reflexivity.
  destruct (snd (rounded m e l) <=? emax - prec) eqn:Hov; [|reflexivity].
  unfold valid. cbn [valid_binary]. unfold bounded, canonical_mantissa.
  rewrite Hov, andb_true_r. apply Z.eqb_eq.
  specialize (Cn ltac:(lia)). exact Cn.
Qed.

Lemma digits_mul (a b : positive) :
  digits a + digits b - 1 <= digits (a * b).
Proof.
  pose proof (digits_bounds a) as [La _]. pose proof (digits_bounds b) as [Lb _].
  pose proof (digits_bounds (a * b)) as [_ U].
  pose proof (digits_pos a). pose proof (digits_pos b).
  destruct (Z_lt_le_dec (digits (a * b)) (digits a + digits b - 1)) as [H1|];
    [|lia].
  assert (A : 2 ^ digits (a * b) <= 2 ^ (digits a - 1 + (digits b - 1)))
    by (apply Z.pow_le_mono_r; lia).
  rewrite Z.pow_add_r in A by lia.
  assert (B : 2 ^ (digits a - 1) * 2 ^ (digits b - 1) <= Zpos a * Zpos b)
    by (apply Z.mul_le_mono_nonneg; try apply Z.pow_nonneg; lia).
  rewrite Pos2Z.inj_mul in U. lia.
Qed.

Lemma mul_valid (a b : float) :
  valid a = true -> valid b = true -> valid (a * b)%f32 = true.
Proof.
  intros Va Vb.
  destruct a as [sa|sa| |sa ma ea], b as [sb|sb| |sb mb eb];
    try reflexivity.
  unfold mul. cbn [SFmul]. apply bra_valid; [lia|].
  destruct (bounded_canonical _ _ Va) as [Ca _].
  destruct (bounded_canonical _ _ Vb) as [Cb _].
  pose proof (digits_mul ma mb). pose proof (digits_pos ma).
  pose proof (digits_pos mb).
  cbn [Zdigits2]. fold (digits (ma * mb)). rewrite fexp_eq in *. lia.
Qed.

Set Implicit Arguments.
Local Close Scope Z_scope.

(** * Progress over ticks *)

Section Progress.

Variable env : Env.

Lemma tick_distance_ok (dt : float) :
  usable_env env = true -> usable_dt dt = true ->
  valid (tick_distance env dt) = true /\
  nonneg (tick_distance env dt) = true.
Proof.
  unfold usable_env, usable_dt. intros He Hd.
  repeat (apply andb_true_iff in He as [He ?]).
  repeat (apply andb_true_iff in Hd as [Hd ?]).
  apply Z.ltb_lt in He.
  match goal with H : (_ <=? _)%Z = true |- _ => apply Z.leb_le in H end.
  destruct (of_Z_pos (display_width env)) as (m & e & W & B); [lia|].
  unfold tick_distance. rewrite W. split.
  - apply mul_valid; [now apply mul_valid | exact B].
  - apply mul_nonneg_finite_pos. now apply mul_nonneg.
Qed.

Lemma bounce_restarts (b : RequestBall) :
  has_bounced b = false -> distance_travelled (bounce env b) = zero.
Proof.
  intros H. unfold bounce. rewrite H. cbn.
  now destruct (project_frame env b) as (_ & _ & _ & _ & _ & _ & _ & _ & ->).
Qed.

Lemma progress_mono (d d' t : float) :
  valid d = true -> valid d' = true -> nonneg d = true ->
  (d <=? d')%f32 = true -> measurable t = true ->
  (d / t <=? d' / t)%f32 = true.
Proof.
  unfold measurable. intros Vd Vd' Pd L M.
  apply andb_true_iff in M as [M Ft]. apply andb_true_iff in M as [_ Pt].
  now apply div_mono.
Qed.

Lemma progress_at_least_one (d t : float) :
  valid d = true -> (t <=? d)%f32 = true -> measurable t = true ->
  (one <=? d / t)%f32 = true.
Proof.
  unfold measurable. intros Vd L M.
  apply andb_true_iff in M as [M Ft]. apply andb_true_iff in M as [Vt Pt].
  assert (H : (t / t <=? d / t)%f32 = true).
  { apply div_mono; try assumption.
    destruct t as [s|[]| |[] m e]; try discriminate; reflexivity. }
  destruct t as [s|[]| |[] m e]; try discriminate.
  now rewrite div_self in H.
Qed.

(** One tick, on a ball whose distance_travelled is non-negative. *)
Lemma tick_progress (dt : float) (b : RequestBall) :
  usable_env env = true -> usable_dt dt = true ->
  valid (distance_travelled b) = true ->
  (zero <=? distance_travelled b)%f32 = true ->
  let b' := animate env dt b in
  (valid (distance_travelled b') = true /\
   (zero <=? distance_travelled b')%f32 = true) /\
  (has_bounced b' = has_bounced b ->
   total_distance b' = total_distance b /\
   (distance_travelled b <=? distance_travelled b')%f32 = true /\
   (measurable (total_distance b) = true ->
    (getProgress b <=? getProgress b')%f32 = true)) /\
  (has_bounced b' <> has_bounced b ->
   distance_travelled b' = zero /\
   getProgress b' = (zero / total_distance b')%f32) /\
  (isFinished b' = true ->
   (total_distance b' <=? distance_travelled b')%f32 = true /\
   (measurable (total_distance b') = true ->
    (one <=? getProgress b')%f32 = true)).
Proof.
  intros He Hdt Vd Pd b'.
  destruct (tick_distance_ok dt He Hdt) as [Vt Pt].
  destruct (add_nonneg _ _ Vd Vt Pd Pt) as (Hle & Hv & Hp).
  assert (Hfin : forall s : RequestBall,
             valid (distance_travelled s) = true ->
             isFinished s = true ->
             (total_distance s <=? distance_travelled s)%f32 = true /\
             (measurable (total_distance s) = true ->
              (one <=? getProgress s)%f32 = true)).
  { intros s Vs H. unfold isFinished, geb in H.
    apply andb_true_iff in H as [_ H]. split; [exact H|].
    intros M. now apply progress_at_least_one. }
  specialize (Hfin b'). subst b'.
  destruct (animate_cases env dt b) as [[Hb A]|[[Hb A]|[_ [v A]]]];
    rewrite A in *.
  - assert (Z0 : distance_travelled
                   (bounce env
                      (set_distance_travelled
                         (distance_travelled b + tick_distance env dt)%f32
                         b)) = zero) by now apply bounce_restarts.
    rewrite bounce_has_bounced, Hb.
    split; [rewrite Z0; split; reflexivity|].
    split; [intros; congruence|].
    split; [intros _; split;
            [exact Z0 | unfold getProgress; now rewrite Z0]|].
    apply Hfin. now rewrite Z0.
  - split; [split; assumption|].
    split; [intros _; split; [reflexivity|]; split; [assumption|] |].
    + intros M. unfold getProgress. now apply progress_mono.
    + split; [cbn; congruence|]. apply Hfin. exact Hv.
  - split; [split; assumption|].
    split; [intros _; split; [reflexivity|]; split; [assumption|] |].
    + intros M. unfold getProgress. now apply progress_mono.
    + split; [cbn; congruence|]. apply Hfin. exact Hv.
Qed.

(** C4 (amended): let the environment have a positive width and a
    non-negative finite speed, and take any sequence of per-tick advance
    calls with non-negative finite [dt] on a ball whose distance_travelled
    is non-negative (a new ball, for one).  For every two successive
    states [s], [s'] of the sequence:
    - if the tick from [s] to [s'] does not trigger the bounce projection,
      total_distance is unchanged, distance_travelled does not decrease,
      and the progress does not decrease (for a positive finite
      total_distance);
    - if the tick triggers the bounce projection, distance_travelled
      restarts at 0 against the new path: the progress restarts from
      0 / total_distance;
    - once the finished predicate holds, distance_travelled is at least
      total_distance and the progress is at least 1.0 (for a positive
      finite total_distance); it is not pinned to 1.0. *)
Theorem progress_over_ticks (dts : list float) (b : RequestBall) :
  usable_env env = true ->
  Forall (fun dt => usable_dt dt = true) dts ->
  valid (distance_travelled b) = true ->
  (zero <=? distance_travelled b)%f32 = true ->
  forall (i : nat) (s s' : RequestBall),
    nth_error (trace env (map OpAnimate dts) b) i = Some s ->
    nth_error (trace env (map OpAnimate dts) b) (S i) = Some s' ->
    (has_bounced s' = has_bounced s ->
     total_distance s' = total_distance s /\
     (distance_travelled s <=? distance_travelled s')%f32 = true /\
     (measurable (total_distance s) = true ->
      (getProgress s <=? getProgress s')%f32 = true)) /\
    (has_bounced s' <> has_bounced s ->
     distance_travelled s' = zero /\
     getProgress s' = (zero / total_distance s')%f32) /\
    (isFinished s' = true ->
     (total_distance s' <=? distance_travelled s')%f32 = true /\
     (measurable (total_distance s') = true ->
      (one <=? getProgress s')%f32 = true)).
Proof.
  intros He Hdts. revert b.
  induction Hdts as [|dt dts Hdt _ IH]; intros b Vd Pd i s s' Hs Hs'.
  - destruct i; discriminate Hs'.
  - change (trace env (map OpAnimate (dt :: dts)) b)
      with (b :: trace env (map OpAnimate dts) (animate env dt b)) in *.
    destruct (tick_progress dt b He Hdt Vd Pd) as [[Vd' Pd'] T].
    destruct i as [|i].
    + destruct (trace_head env (map OpAnimate dts) (animate env dt b))
        as [rest E].
      rewrite E in Hs'. cbn in Hs, Hs'.
      injection Hs as <-. injection Hs' as <-. exact T.
    + cbn [nth_error] in Hs, Hs'. exact (IH _ Vd' Pd' i s s' Hs Hs').
Qed.

End Progress.

Lemma progress_over_ticks_witness :
  (has_bounced flat_ball_moving = has_bounced flat_ball /\
   measurable (total_distance flat_ball) = true /\
   (getProgress flat_ball <=? getProgress flat_ball_moving)%f32 = true)
  /\
  (has_bounced flat_ball_bounced <> has_bounced flat_ball_moving /\
   distance_travelled flat_ball_bounced = zero) /\
  (isFinished flat_ball_finished = true /\
   measurable (total_distance flat_ball_finished) = true /\
   (one <=? getProgress flat_ball_finished)%f32 = true).
Proof.
  assert (D : Forall (fun dt => usable_dt dt = true) [quarter; five; five])
    by (repeat constructor).
  pose proof (@progress_over_ticks scene_env [quarter; five; five] flat_ball
                eq_refl D eq_refl eq_refl) as T.
  split; [|split].
  - assert (H : has_bounced flat_ball_moving = has_bounced flat_ball)
      by (vm_compute; reflexivity).
    assert (M : measurable (total_distance flat_ball) = true)
      by (vm_compute; reflexivity).
    split; [exact H|]. split; [exact M|].
    exact (proj2 (proj2 (proj1 (T 0%nat flat_ball flat_ball_moving
                                  eq_refl eq_refl) H)) M).
  - assert (H : has_bounced flat_ball_bounced <> has_bounced flat_ball_moving)
      by (vm_compute; discriminate).
    split; [exact H|].
    exact (proj1 (proj1 (proj2 (T 1%nat flat_ball_moving flat_ball_bounced
                                  eq_refl eq_refl)) H)).
  - assert (H : isFinished flat_ball_finished = true)
      by (vm_compute; reflexivity).
    assert (M : measurable (total_distance flat_ball_finished) = true)
      by (vm_compute; reflexivity).
    split; [exact H|]. split; [exact M|].
    exact (proj2 (proj2 (proj2 (T 2%nat flat_ball_bounced flat_ball_finished
                                  eq_refl eq_refl)) H) M).
Defined.

(** C4 (as stated) fails twice.  The horizontal ball has progress 30/400
    after its first tick; the next tick triggers the bounce and the
    progress is 0.  One more tick finishes the ball with
    distance_travelled = 600 on a path of length 30: the progress is 20,
    not 1. *)
Lemma progress_counterexample :
  ~ stated_progress_monotone scene_env five flat_ball_moving /\
  ~ stated_progress_one flat_ball_finished.
Proof.
  split.
  - unfold stated_progress_monotone. intros H.
    assert (P : (zero <=? five)%f32 = true) by (vm_compute; reflexivity).
    specialize (H P). vm_compute in H. discriminate H.
  - unfold stated_progress_one. intros H.
    assert (F : isFinished flat_ball_finished = true)
      by (vm_compute; reflexivity).
    specialize (H F). vm_compute in H. discriminate H.
Qed.

(** * The constructor and what a lifetime keeps *)

Section Lifetime.

Variable logf : float -> float.
Variable env : Env.

(** X1: the size the constructor gives a ball is never below 5: it is the
    NaN of the logarithm or at least 5.  It depends on the response size
    only through its conversion to [int]: two log entries whose response
    sizes agree modulo 2^32 give balls of the same size and offset,
    whatever their positions; and for a response size in the range of
    [int] the size is [log((float) response_size) + 1], raised to 5 when
    below. *)
Theorem newRequestBall_size (e e' : LogEntry) (p d p' d' : vec2) :
  let b := newRequestBall logf e p d in
  let b' := newRequestBall logf e' p' d' in
  ((size b <? five)%f32 = false /\
   (is_nan (size b) = true \/ (five <=? size b)%f32 = true)) /\
  ((response_size e' mod 4294967296
    = response_size e mod 4294967296)%Z ->
   size b' = size b /\ offset b' = offset b) /\
  ((-2147483648 <= response_size e < 2147483648)%Z ->
   size b = if (logf (of_Z (response_size e)) + one <? five)%f32
            then five else (logf (of_Z (response_size e)) + one)%f32).
Proof.
  cbn zeta. split; [|split].
  - cbn [size newRequestBall addPoint].
    destruct (logf (of_Z (int32 (response_size e))) + one <? five)%f32 eqn:L.
    + split; [reflexivity | right; reflexivity].
    + split; [exact L|].
      destruct (is_nan (logf (of_Z (int32 (response_size e))) + one)%f32)
        eqn:N; [now left | right].
      apply ltb_false_leb; [exact L | exact N | reflexivity].
  - intros H.
    assert (E : int32 (response_size e') = int32 (response_size e)).
    { unfold int32.
      rewrite <- (Zplus_mod_idemp_l (response_size e')),
              <- (Zplus_mod_idemp_l (response_size e)), H.
      reflexivity. }
    cbn [size offset newRequestBall addPoint]. rewrite E. now split.
  - intros H. cbn [size newRequestBall addPoint].
    assert (E : int32 (response_size e) = response_size e)
      by (unfold int32; rewrite Z.mod_small; lia).
    now rewrite E.
Qed.

Lemma bounce_frame (b : RequestBall) :
  le (bounce env b) = le b /\ no_bounce (bounce env b) = no_bounce b /\
  size (bounce env b) = size b /\ offset (bounce env b) = offset b.
Proof.
  unfold bounce. destruct (has_bounced b); [now repeat split|].
  cbn [set_has_bounced le no_bounce size offset].
  destruct (project_frame env b) as (-> & _ & _ & _ & -> & -> & _ & -> & _).
  now repeat split.
Qed.

Lemma step_frame (o : op) (b : RequestBall) :
  le (step env o b) = le b /\ no_bounce (step env o b) = no_bounce b /\
  size (step env o b) = size b /\ offset (step env o b) = offset b.
Proof.
  destruct o as [x| |dt]; cbn [step].
  - unfold changeDestX. destruct (has_bounced b); [now repeat split|].
    destruct (x <=? vx (pos b))%f32; [apply bounce_frame | now repeat split].
  - apply bounce_frame.
  - destruct (animate_cases env dt b) as [[_ ->]|[[_ ->]|[_ [v ->]]]];
      [|now repeat split|now repeat split].
    destruct (bounce_frame
                (set_distance_travelled
                   (distance_travelled b + tick_distance env dt)%f32 b))
      as (-> & -> & -> & ->).
    now repeat split.
Qed.

(** X2: no operation on a ball (re-targeting, the bounce, a tick) changes
    its log entry, its no_bounce flag, its size or its offset: on every
    state of a lifetime they are the constructor's. *)
Theorem lifetime_frame (e : LogEntry) (p d : vec2) (b : RequestBall) :
  lifetime logf env e p d b ->
  le b = e /\ no_bounce b = negb (successful e) /\
  size b = size (newRequestBall logf e p d) /\
  offset b = offset (newRequestBall logf e p d).
Proof.
  induction 1 as [|o b L (IH1 & IH2 & IH3 & IH4)].
  - now repeat split.
  - destruct (step_frame o b) as (-> & -> & -> & ->). now repeat split.
Qed.

Lemma points_step (o : op) (b : RequestBall) :
  (2 <= List.length (points b))%nat ->
  (2 <= List.length (points (step env o b)))%nat.
Proof.
  intros H.
  assert (B : forall s, (2 <= List.length (points s))%nat ->
                        (2 <= List.length (points (bounce env s)))%nat).
  { intros s Hs. unfold bounce. destruct (has_bounced s); [exact Hs|].
    cbn [set_has_bounced points]. rewrite project_points.
    destruct (reflects env s); cbn; lia. }
  destruct o as [x| |dt]; cbn [step].
  - unfold changeDestX. destruct (has_bounced b); [exact H|].
    destruct (x <=? vx (pos b))%f32; [now apply B | cbn; lia].
  - now apply B.
  - destruct (animate_cases env dt b) as [[_ ->]|[[_ ->]|[_ [v ->]]]];
      [apply B | |]; exact H.
Qed.

(** Every state of a lifetime has a well-formed path of at least one
    segment. *)
Lemma lifetime_path (e : LogEntry) (p d : vec2) (b : RequestBall) :
  lifetime logf env e p d b ->
  path_ok b /\ (2 <= List.length (points b))%nat.
Proof.
  induction 1 as [|o b L [IH1 IH2]].
  - split; [apply newRequestBall_path_ok | cbn; lia].
  - split; [now apply step_path_ok | now apply points_step].
Qed.

(** Before the bounce the path is the one segment from the origin to the
    current destination. *)
Lemma before_bounce_path (e : LogEntry) (p d : vec2) (b : RequestBall) :
  lifetime logf env e p d b -> has_bounced b = false ->
  points b = [p; dest b] /\
  line_lengths b = [length (vsub p (dest b))].
Proof.
  induction 1 as [|o b L IH]; intros Hb.
  - now split.
  - destruct o as [x| |dt]; cbn [step] in *.
    + unfold changeDestX in *. destruct (has_bounced b) eqn:E; [congruence|].
      destruct (x <=? vx (pos b))%f32.
      * now rewrite bounce_has_bounced in Hb.
      * destruct (IH eq_refl) as (Hp & _). rewrite Hp. cbn. now split.
    + now rewrite bounce_has_bounced in Hb.
    + destruct (animate_cases env dt b) as [[_ A]|[[E A]|[_ [v A]]]];
        rewrite A in *.
      * now rewrite bounce_has_bounced in Hb.
      * cbn in Hb. congruence.
      * cbn in Hb |- *. now apply IH.
Qed.

(** X3: until it bounces, whatever re-targetings and ticks it went
    through, a ball has the single segment from its origin to its current
    destination as path, that segment's length as total distance, its
    destination as finish position and the direction the constructor
    computed. *)
Theorem lifetime_single_segment (e : LogEntry) (p d : vec2)
        (b : RequestBall) :
  lifetime logf env e p d b -> has_bounced b = false ->
  points b = [p; dest b] /\
  line_lengths b = [length (vsub p (dest b))] /\
  total_distance b = (zero + length (vsub p (dest b)))%f32 /\
  getFinishPos b = dest b /\
  dir b = normalize (vsub d p).
Proof.
  intros L Hb.
  destruct (before_bounce_path L Hb) as [Hp Hl].
  destruct (lifetime_before_bounce L Hb) as [Hd _].
  destruct (lifetime_path L) as [(_ & _ & Ht) _].
  repeat split; try assumption.
  - rewrite Ht, Hl. reflexivity.
  - unfold getFinishPos. rewrite Hp. reflexivity.
Qed.

End Lifetime.

Lemma newRequestBall_size_witness :
  (size (newRequestBall logf_one (mkLogEntry 4294967297 true)
                        (pt 700 300) (pt 750 590)) = size flat_ball /\
   offset (newRequestBall logf_one (mkLogEntry 4294967297 true)
                          (pt 700 300) (pt 750 590)) = offset flat_ball) /\
  size flat_ball
  = if (logf_one (of_Z 1) + one <? five)%f32
    then five else (logf_one (of_Z 1) + one)%f32.
Proof.
  split.
  - apply (proj1 (proj2 (@newRequestBall_size logf_one
                           (one_byte true) (mkLogEntry 4294967297 true)
                           (pt 0 300) (pt 400 300)
                           (pt 700 300) (pt 750 590)))).
    reflexivity.
  - apply (proj2 (proj2 (@newRequestBall_size logf_one
                           (one_byte true) (one_byte true)
                           (pt 0 300) (pt 400 300)
                           (pt 0 300) (pt 400 300)))).
    cbn. lia.
Defined.

Lemma lifetime_frame_witness :
  le flat_ball_bounced = one_byte true /\
  no_bounce flat_ball_bounced = negb (successful (one_byte true)) /\
  size flat_ball_bounced = size flat_ball /\
  offset flat_ball_bounced = offset flat_ball.
Proof.
  apply (@lifetime_frame logf_one scene_env (one_byte true)
           (pt 0 300) (pt 400 300) flat_ball_bounced).
  exact (lifetime_step (OpAnimate five)
           (lifetime_step (OpAnimate quarter)
              (lifetime_new logf_one scene_env (one_byte true)
                 (pt 0 300) (pt 400 300)))).
Defined.

Lemma lifetime_single_segment_witness :
  points flat_ball_moving = [pt 0 300; dest flat_ball_moving] /\
  line_lengths flat_ball_moving
  = [length (vsub (pt 0 300) (dest flat_ball_moving))] /\
  total_distance flat_ball_moving
  = (zero + length (vsub (pt 0 300) (dest flat_ball_moving)))%f32 /\
  getFinishPos flat_ball_moving = dest flat_ball_moving /\
  dir flat_ball_moving = normalize (vsub (pt 400 300) (pt 0 300)).
Proof.
  apply (@lifetime_single_segment logf_one scene_env (one_byte true)
           (pt 0 300) (pt 400 300) flat_ball_moving).
  - exact (lifetime_step (OpAnimate quarter)
             (lifetime_new logf_one scene_env (one_byte true)
                (pt 0 300) (pt 400 300))).
  - reflexivity.
Defined.

(** * After the bounce *)

Section AfterBounce.

Variable env : Env.

Lemma step_bounced (o : op) (b : RequestBall) :
  has_bounced b = true ->
  points (step env o b) = points b /\
  line_lengths (step env o b) = line_lengths b /\
  total_distance (step env o b) = total_distance b /\
  dir (step env o b) = dir b /\ dest (step env o b) = dest b /\
  has_bounced (step env o b) = true.
Proof.
  intros H. destruct o as [x| |dt]; cbn [step].
  - unfold changeDestX. rewrite H. now repeat split.
  - rewrite (bounce_noop env b H). now repeat split.
  - destruct (animate_cases env dt b) as [[E _]|[[_ ->]|[_ [v ->]]]];
      [congruence | now repeat split | now repeat split].
Qed.

(** X4: once a ball has bounced, no sequence of re-targetings, bounce
    requests and ticks changes its path again: waypoints, segment lengths,
    total distance, direction and destination stay those of the bounce
    projection, and the ball stays bounced. *)
Theorem bounced_path_frozen (ops : list op) (b : RequestBall) :
  has_bounced b = true ->
  Forall (fun s => points s = points b /\
                   line_lengths s = line_lengths b /\
                   total_distance s = total_distance b /\
                   dir s = dir b /\ dest s = dest b /\
                   has_bounced s = true)
         (trace env ops b).
Proof.
  revert b. induction ops as [|o ops IH]; intros b H.
  - constructor; [now repeat split | constructor].
  - change (trace env (o :: ops) b) with (b :: trace env ops (step env o b)).
    constructor; [now repeat split|].
    destruct (step_bounced o b H) as (E1 & E2 & E3 & E4 & E5 & E6).
    specialize (IH _ E6). rewrite E1, E2, E3, E4, E5 in IH. exact IH.
Qed.

Lemma step_finished (o : op) (b : RequestBall) :
  usable_env env = true -> usable_op o = true ->
  valid (distance_travelled b) = true ->
  nonneg (distance_travelled b) = true ->
  isFinished b = true ->
  isFinished (step env o b) = true /\
  valid (distance_travelled (step env o b)) = true /\
  nonneg (distance_travelled (step env o b)) = true.
Proof.
  intros He Ho Vd Pd F. unfold isFinished in F.
  apply andb_true_iff in F as [Hb G].
  destruct o as [x| |dt]; cbn [step].
  - unfold changeDestX. rewrite Hb. unfold isFinished.
    now rewrite Hb, G.
  - rewrite (bounce_noop env b Hb). unfold isFinished. now rewrite Hb, G.
  - cbn [usable_op] in Ho.
    destruct (tick_distance_ok env dt He Ho) as [Vt Pt].
    destruct (add_nonneg _ _ Vd Vt Pd Pt) as (Hle & Hv & Hp).
    assert (G' : ((distance_travelled b + tick_distance env dt)%f32
                  >=? total_distance b)%f32 = true)
      by (unfold geb in *; exact (leb_trans _ _ _ G Hle)).
    destruct (animate_cases env dt b) as [[E _]|[[_ ->]|[_ [v ->]]]];
      [congruence | |]; unfold isFinished;
      cbn [has_bounced distance_travelled total_distance
           set_distance_travelled set_pos];
      now rewrite Hb, G'.
Qed.

(** X5: a finished ball stays finished: in an environment with a positive
    display width and a non-negative finite speed, no sequence of
    re-targetings, bounce requests and ticks with non-negative finite dt
    makes isFinished false again. *)
Theorem finished_is_absorbing (ops : list op) (b : RequestBall) :
  usable_env env = true ->
  Forall (fun o => usable_op o = true) ops ->
  valid (distance_travelled b) = true ->
  (zero <=? distance_travelled b)%f32 = true ->
  isFinished b = true ->
  Forall (fun s => isFinished s = true) (trace env ops b).
Proof.
  intros He Hops. revert b.
  induction Hops as [|o ops Ho _ IH]; intros b Vd Pd F.
  - constructor; [exact F | constructor].
  - change (trace env (o :: ops) b) with (b :: trace env ops (step env o b)).
    constructor; [exact F|].
    destruct (step_finished o b He Ho Vd Pd F) as (F' & Vd' & Pd').
    now apply IH.
Qed.

End AfterBounce.

Lemma bounced_path_frozen_witness :
  Forall (fun s => points s = points flat_ball_bounced /\
                   line_lengths s = line_lengths flat_ball_bounced /\
                   total_distance s = total_distance flat_ball_bounced /\
                   dir s = dir flat_ball_bounced /\
                   dest s = dest flat_ball_bounced /\
                   has_bounced s = true)
         (trace scene_env
                [OpChangeDestX (of_Z 500); OpBounce; OpAnimate quarter]
                flat_ball_bounced).
Proof.
  apply (@bounced_path_frozen scene_env
           [OpChangeDestX (of_Z 500); OpBounce; OpAnimate quarter]
           flat_ball_bounced).
  reflexivity.
Defined.

Lemma finished_is_absorbing_witness :
  Forall (fun s => isFinished s = true)
         (trace scene_env
                [OpAnimate quarter; OpChangeDestX (of_Z 500); OpBounce]
                flat_ball_finished).
Proof.
  apply (@finished_is_absorbing scene_env
           [OpAnimate quarter; OpChangeDestX (of_Z 500); OpBounce]
           flat_ball_finished); try reflexivity.
  repeat constructor.
Defined.

(** * Where a tick puts the ball *)

Lemma firstn_snoc_nth (l : list float) (k : nat) :
  (k < List.length l)%nat -> firstn (S k) l = firstn k l ++ [nth k l zero].
Proof.
  revert k. induction l as [|a l IH]; intros k H; [cbn in H; lia|].
  destruct k as [|k]; [reflexivity|].
  cbn [List.length] in H.
  change (a :: firstn (S k) l = a :: (firstn k l ++ [nth k l zero])).
  now rewrite (IH k) by lia.
Qed.

Lemma total_snoc (l : list float) (a : float) :
  total (l ++ [a]) = (total l + a)%f32.
Proof. unfold total. now rewrite fold_left_app. Qed.

(** The loop of [animate] on a path of total length [total lens] that
    [dist] has not reached: it stops on a segment of the path, with [len]
    the length of the segments before it. *)
Lemma walk_in_range (lens : list float) (dist : float)
      (fuel pointno : nat) (len : float) :
  (pointno < List.length lens)%nat ->
  (List.length lens - pointno <= fuel)%nat ->
  len = total (firstn pointno lens) ->
  (dist >=? total lens)%f32 = false ->
  exists k l,
    walk lens (List.length lens) dist fuel pointno len = (k, l) /\
    (k < List.length lens)%nat /\ l = total (firstn k lens) /\
    (l + nth k lens zero <? dist)%f32 = false.
Proof.
  revert pointno len.
  induction fuel as [|fuel IH]; intros pointno len Hp Hf Hl G; [lia|].
  cbn [walk].
  assert (Hlt : (pointno <? List.length lens)%nat = true)
    by now apply PeanoNat.Nat.ltb_lt.
  rewrite Hlt. cbn [andb].
  destruct (len + nth pointno lens zero <? dist)%f32 eqn:T.
  - assert (Hs : (len + nth pointno lens zero)%f32
                 = total (firstn (S pointno) lens))
      by (rewrite firstn_snoc_nth, total_snoc, Hl by assumption; reflexivity).
    destruct (PeanoNat.Nat.eq_dec (S pointno) (List.length lens)) as [E|N].
    + rewrite E, firstn_all in Hs. rewrite Hs in T.
      apply ltb_leb in T. unfold geb in G. unfold leb in T. congruence.
    + apply IH; try assumption; lia.
  - exists pointno, len. now repeat split.
Qed.

Section Interpolation.

Variable logf : float -> float.
Variable env : Env.

(** A tick that does not reach the end of a well-formed path with at least
    one segment. *)
Lemma animate_on_path (dt : float) (b : RequestBall) :
  path_ok b -> (2 <= List.length (points b))%nat ->
  let d' := (distance_travelled b + tick_distance env dt)%f32 in
  (d' >=? total_distance b)%f32 = false ->
  exists k l,
    (k < List.length (line_lengths b))%nat /\
    l = total (firstn k (line_lengths b)) /\
    (l + nth k (line_lengths b) zero <? d')%f32 = false /\
    animate env dt b
    = set_pos (vadd (nth k (points b) vzero)
                    (vscale (vsub (nth (S k) (points b) vzero)
                                  (nth k (points b) vzero))
                            ((d' - l) / nth k (line_lengths b) zero)%f32))
              (set_distance_travelled d' b).
Proof.
  intros (Hne & Hs & Ht) H2 d' G.
  assert (Hn : (List.length (points b) - 1 = List.length (line_lengths b))%nat)
    by (rewrite Hs; symmetry; apply segments_length).
  destruct (@walk_in_range (line_lengths b) d'
              (List.length (line_lengths b)) 0 zero)
    as (k & l & W & Hk & Hl & Hstop);
    [lia | lia | reflexivity | now rewrite <- Ht |].
  exists k, l. repeat split; try assumption.
  unfold animate.
  cbn [distance_travelled total_distance set_distance_travelled
       points line_lengths has_bounced].
  fold d'. rewrite G, Hn, W.
  assert (Hle : (List.length (line_lengths b) <=? k)%nat = false)
    by (apply PeanoNat.Nat.leb_gt; exact Hk).
  now rewrite Hle.
Qed.

(** X6: on every state of a lifetime, a tick whose incremented distance
    stays below the total distance stops the loop of animate on a segment
    [k] of the path, with [len] the sum of the lengths of the segments
    before it and the incremented distance not beyond the end of segment
    [k]; the branch for a loop that ran off the path is not taken, the ball
    does not bounce, and the new position is
    [points[k] + (points[k+1] - points[k]) * ((distance - len) / length k)]. *)
Theorem animate_interpolates (e : LogEntry) (p d : vec2) (dt : float)
        (b : RequestBall) :
  lifetime logf env e p d b ->
  let d' := (distance_travelled b + tick_distance env dt)%f32 in
  (d' >=? total_distance b)%f32 = false ->
  exists k l,
    (k < List.length (line_lengths b))%nat /\
    l = total (firstn k (line_lengths b)) /\
    (l + nth k (line_lengths b) zero <? d')%f32 = false /\
    animate env dt b
    = set_pos (vadd (nth k (points b) vzero)
                    (vscale (vsub (nth (S k) (points b) vzero)
                                  (nth k (points b) vzero))
                            ((d' - l) / nth k (line_lengths b) zero)%f32))
              (set_distance_travelled d' b) /\
    has_bounced (animate env dt b) = has_bounced b.
Proof.
  intros L d' G. destruct (lifetime_path L) as [Hok H2].
  destruct (animate_on_path dt Hok H2 G) as (k & l & Hk & Hl & Hs & A).
  exists k, l. repeat split; try assumption. now rewrite A.
Qed.

(** X7: a tick on a ball that has not bounced either reaches the total
    distance, and is then the bounce of the ball with the incremented
    distance, or puts the ball on the line from its origin [p] to its
    destination, at [p + (dest - p) * ((distance - 0) / |p - dest|)]. *)
Theorem animate_before_bounce (e : LogEntry) (p d : vec2) (dt : float)
        (b : RequestBall) :
  lifetime logf env e p d b -> has_bounced b = false ->
  let d' := (distance_travelled b + tick_distance env dt)%f32 in
  ((d' >=? total_distance b)%f32 = true ->
   animate env dt b = bounce env (set_distance_travelled d' b)) /\
  ((d' >=? total_distance b)%f32 = false ->
   animate env dt b
   = set_pos (vadd p (vscale (vsub (dest b) p)
                             ((d' - zero) / length (vsub p (dest b)))%f32))
             (set_distance_travelled d' b)).
Proof.
  intros L Hb d'. split; intros G.
  - unfold animate.
    cbn [distance_travelled total_distance set_distance_travelled
         has_bounced].
    fold d'. now rewrite G, Hb.
  - destruct (lifetime_path L) as [Hok H2].
    destruct (before_bounce_path L Hb) as [Hp Hl].
    destruct (animate_on_path dt Hok H2 G) as (k & l & Hk & El & _ & A).
    rewrite Hl in Hk, El. cbn [List.length] in Hk.
    assert (k = 0%nat) by lia. subst k. cbn in El. subst l.
    rewrite A, Hp, Hl. reflexivity.
Qed.

End Interpolation.

Lemma animate_interpolates_witness :
  exists k l,
    (k < List.length (line_lengths steep_ball_bounced))%nat /\
    l = total (firstn k (line_lengths steep_ball_bounced)) /\
    (l + nth k (line_lengths steep_ball_bounced) zero
     <? distance_travelled steep_ball_bounced
        + tick_distance scene_env five)%f32 = false /\
    animate scene_env five steep_ball_bounced
    = set_pos
        (vadd (nth k (points steep_ball_bounced) vzero)
              (vscale (vsub (nth (S k) (points steep_ball_bounced) vzero)
                            (nth k (points steep_ball_bounced) vzero))
                      ((distance_travelled steep_ball_bounced
                        + tick_distance scene_env five - l)
                       / nth k (line_lengths steep_ball_bounced) zero)%f32))
        (set_distance_travelled
           (distance_travelled steep_ball_bounced
            + tick_distance scene_env five)%f32 steep_ball_bounced) /\
    has_bounced (animate scene_env five steep_ball_bounced)
    = has_bounced steep_ball_bounced.
Proof.
  apply (@animate_interpolates logf_one scene_env (one_byte true)
           (pt 700 300) (pt 750 590) five steep_ball_bounced).
  - exact (lifetime_step OpBounce
             (lifetime_new logf_one scene_env (one_byte true)
                (pt 700 300) (pt 750 590))).
  - reflexivity.
Defined.

Lemma animate_before_bounce_witness :
  animate scene_env quarter flat_ball
  = set_pos
      (vadd (pt 0 300)
            (vscale (vsub (dest flat_ball) (pt 0 300))
                    ((distance_travelled flat_ball
                      + tick_distance scene_env quarter - zero)
                     / length (vsub (pt 0 300) (dest flat_ball)))%f32))
      (set_distance_travelled
         (distance_travelled flat_ball
          + tick_distance scene_env quarter)%f32 flat_ball) /\
  animate scene_env five flat_ball_moving
  = bounce scene_env
      (set_distance_travelled
         (distance_travelled flat_ball_moving
          + tick_distance scene_env five)%f32 flat_ball_moving).
Proof.
  split.
  - apply (proj2 (@animate_before_bounce logf_one scene_env (one_byte true)
                    (pt 0 300) (pt 400 300) quarter flat_ball
                    (lifetime_new logf_one scene_env (one_byte true)
                       (pt 0 300) (pt 400 300))
                    eq_refl)).
    reflexivity.
  - apply (proj1 (@animate_before_bounce logf_one scene_env (one_byte true)
                    (pt 0 300) (pt 400 300) five flat_ball_moving
                    (lifetime_step (OpAnimate quarter)
                       (lifetime_new logf_one scene_env (one_byte true)
                          (pt 0 300) (pt 400 300)))
                    eq_refl)).
    reflexivity.
Defined.

(** * The arrival flag of [logic] *)

Section Logic.

Variable env : Env.

Lemma animate_end_pos (dt : float) (b : RequestBall) :
  ((distance_travelled b + tick_distance env dt)%f32
   >=? total_distance b)%f32 = true ->
  pos (animate env dt b) = pos b.
Proof.
  intros G. unfold animate.
  cbn [distance_travelled total_distance set_distance_travelled has_bounced].
  rewrite G. destruct (has_bounced b); cbn [negb].
  - reflexivity.
  - now rewrite bounce_pos.
Qed.

(** X8: logic advances the ball as animate does, and its result is 0 on
    every tick whose incremented distance reaches the total distance (the
    tick that triggers the bounce and every tick after the end of the
    path) and for a ball whose pos.x is NaN; when the result is 1 the tick
    did not reach the total distance, pos.x was negative before it and is
    at least 0 after it, so the position changed. *)
Theorem logic_arrival (dt : float) (b : RequestBall) :
  let d' := (distance_travelled b + tick_distance env dt)%f32 in
  fst (logic env dt b) = animate env dt b /\
  ((d' >=? total_distance b)%f32 = true -> snd (logic env dt b) = false) /\
  (is_nan (vx (pos b)) = true -> snd (logic env dt b) = false) /\
  (snd (logic env dt b) = true ->
   (d' >=? total_distance b)%f32 = false /\
   (vx (pos b) <? zero)%f32 = true /\
   (zero <=? vx (pos (animate env dt b)))%f32 = true /\
   pos (animate env dt b) <> pos b).
Proof.
  intros d'.
  assert (E : forall x, ((x <? zero)%f32 && (x >=? zero)%f32)%bool = false).
  { intros [s|[]| |[] m e]; reflexivity. }
  repeat split.
  - intros G. unfold logic. cbn [snd]. rewrite (animate_end_pos dt b G).
    apply E.
  - intros N. unfold logic. cbn [snd].
    destruct (vx (pos b)) as [s|[]| |[] m e]; try discriminate. reflexivity.
  - destruct (d' >=? total_distance b)%f32 eqn:G; [|reflexivity].
    unfold logic in H. cbn [snd] in H.
    rewrite (animate_end_pos dt b G), E in H. discriminate.
  - unfold logic in H. cbn [snd] in H. now apply andb_true_iff in H.
  - unfold logic in H. cbn [snd] in H. now apply andb_true_iff in H.
  - intros Q. unfold logic in H. cbn [snd] in H. rewrite Q, E in H.
    discriminate.
Qed.

End Logic.

Lemma logic_arrival_witness :
  snd (logic scene_env five flat_ball_moving) = false /\
  ((distance_travelled entering_ball + tick_distance scene_env quarter
    >=? total_distance entering_ball)%f32 = false /\
   (vx (pos entering_ball) <? zero)%f32 = true /\
   (zero <=? vx (pos (animate scene_env quarter entering_ball)))%f32 = true /\
   pos (animate scene_env quarter entering_ball) <> pos entering_ball).
Proof.
  split.
  - apply (proj1 (proj2 (@logic_arrival scene_env five flat_ball_moving))).
    reflexivity.
  - apply (proj2 (proj2 (proj2
                   (@logic_arrival scene_env quarter entering_ball)))).
    reflexivity.
Defined.

(** * Re-targeting twice *)

Section Retargeting.

Variable env : Env.

(** X9: changeDestX is idempotent: on any state, re-targeting to the same
    x a second time changes nothing. *)
Theorem changeDestX_idempotent (x : float) (b : RequestBall) :
  changeDestX env x (changeDestX env x b) = changeDestX env x b.
Proof.
  destruct (has_bounced b) eqn:Hb.
  - unfold changeDestX. now rewrite Hb, Hb.
  - destruct (x <=? vx (pos b))%f32 eqn:L.
    + assert (E : changeDestX env x b = bounce env b)
        by (unfold changeDestX; now rewrite Hb, L).
      rewrite E. unfold changeDestX. now rewrite bounce_has_bounced.
    + unfold changeDestX, addPoint. rewrite Hb, L. cbn. now rewrite ?Hb, ?L.
Qed.

(** X10: of two re-targetings whose x both lie ahead of the ball (neither
    [x1 <= pos.x] nor [x2 <= pos.x]) only the last counts: the state after
    both is the state after the second alone. *)
Theorem changeDestX_last_wins (x1 x2 : float) (b : RequestBall) :
  (x1 <=? vx (pos b))%f32 = false ->
  (x2 <=? vx (pos b))%f32 = false ->
  changeDestX env x2 (changeDestX env x1 b) = changeDestX env x2 b.
Proof.
  intros L1 L2. destruct (has_bounced b) eqn:Hb.
  - unfold changeDestX. now rewrite Hb, Hb.
  - unfold changeDestX, addPoint. rewrite Hb, L1, L2. cbn.
    now rewrite ?Hb, ?L2.
Qed.

(** The projected path depends on the position, the direction, the offset
    and the no_bounce flag only. *)
Lemma project_ignores_dest (b c : RequestBall) :
  pos c = pos b -> dir c = dir b -> offset c = offset b ->
  no_bounce c = no_bounce b ->
  points (project env c) = points (project env b) /\
  line_lengths (project env c) = line_lengths (project env b) /\
  total_distance (project env c) = total_distance (project env b) /\
  dir (project env c) = dir (project env b) /\
  distance_travelled (project env c) = distance_travelled (project env b).
Proof.
  intros Hp Hd Ho Hn.
  assert (Hh : heading c = heading b) by (unfold heading; now rewrite Hn, Hd).
  assert (Hf : far_target_x env c = far_target_x env b)
    by (unfold far_target_x; now rewrite Hn).
  assert (Hy : exit_y env c = exit_y env b)
    by (unfold exit_y; now rewrite Hh, Hf, Hp).
  assert (Hl : lower_bound c = lower_bound b)
    by (unfold lower_bound; now rewrite Ho).
  assert (Hu : upper_bound env c = upper_bound env b)
    by (unfold upper_bound; now rewrite Ho).
  assert (Hr : reflects env c = reflects env b)
    by (unfold reflects; now rewrite Hy, Hl, Hu).
  unfold project. rewrite Hr, Hy, Hl, Hu, Hh, Hf, Hp.
  destruct (reflects env b); cbn; now repeat split.
Qed.

(** X11: the bounce does not depend on an earlier re-targeting: bouncing
    after changeDestX gives the same waypoints, segment lengths, total
    distance, direction, travelled distance and position as bouncing
    straight away (the destination's y is not read by project). *)
Theorem bounce_ignores_retarget (x : float) (b : RequestBall) :
  let b1 := bounce env (changeDestX env x b) in
  let b2 := bounce env b in
  points b1 = points b2 /\ line_lengths b1 = line_lengths b2 /\
  total_distance b1 = total_distance b2 /\ dir b1 = dir b2 /\
  distance_travelled b1 = distance_travelled b2 /\ pos b1 = pos b2 /\
  has_bounced b1 = has_bounced b2.
Proof.
  cbn zeta. unfold changeDestX.
  destruct (has_bounced b) eqn:Hb; [now repeat split|].
  destruct (x <=? vx (pos b))%f32.
  - rewrite (bounce_noop env (bounce env b)) by apply bounce_has_bounced.
    now repeat split.
  - set (c := addPoint _ _).
    assert (Hc : has_bounced c = false) by reflexivity.
    unfold bounce. rewrite Hc, Hb.
    cbn [set_has_bounced points line_lengths total_distance dir
         distance_travelled pos has_bounced].
    destruct (project_ignores_dest b c eq_refl eq_refl eq_refl eq_refl)
      as (-> & -> & -> & -> & ->).
    destruct (project_frame env c) as (_ & -> & _).
    destruct (project_frame env b) as (_ & -> & _).
    now repeat split.
Qed.

End Retargeting.

Lemma changeDestX_last_wins_witness :
  changeDestX scene_env (of_Z 600)
    (changeDestX scene_env (of_Z 500) flat_ball_moving)
  = changeDestX scene_env (of_Z 600) flat_ball_moving.
Proof.
  apply (@changeDestX_last_wins scene_env (of_Z 500) (of_Z 600)
           flat_ball_moving); reflexivity.
Defined.

(** * The sign of the arrival time *)

Lemma sub_nonneg (x y : float) :
  valid x = true -> valid y = true -> nonneg y = true ->
  is_finite x = true -> (y <=? x)%f32 = true ->
  nonneg (x - y)%f32 = true.
Proof.
  intros Vx Vy Py Fx L.
  destruct x as [sx|sx| |sx mx ex], y as [sy|sy| |sy my ey];
    try discriminate;
    try (destruct sx; try discriminate);
    try (destruct sy; try discriminate);
    try reflexivity.
  unfold sub. cbn [SFsub cond_Zopp].
  set (ez := Z.min ex ey).
  pose proof (shl_align_fst mx ex ez ltac:(lia)) as Ha.
  pose proof (shl_align_fst my ey ez ltac:(lia)) as Hb.
  pose proof (scaled_le my ey mx ex ez Vy Vx L ltac:(lia) ltac:(lia)) as Hle.
  rewrite <- Ha, <- Hb in Hle.
  set (a := fst (shl_align mx ex ez)) in *.
  set (c := fst (shl_align my ey ez)) in *.
  destruct (Z.pos a - Z.pos c)%Z as [|m|m] eqn:E; try lia.
  - reflexivity.
  - cbn [binary_normalize]. unfold binary_round.
    destruct (shl_align m ez _) as [mz ez'].
    apply bra_nonneg. lia.
Qed.

Lemma div_nonneg (n t : float) :
  nonneg n = true -> (zero <? t)%f32 = true -> is_finite t = true ->
  nonneg (n / t)%f32 = true.
Proof.
  intros Pn Pt Ft.
  destruct t as [st|st| |[] mT eT]; try discriminate.
  destruct n as [sn|[]| |[] mn en]; try discriminate; try reflexivity.
  apply div_finite_nonneg.
Qed.

Section Arrival.

Variable env : Env.

(** X12: while the distance travelled (non-negative) has not passed a
    finite total distance, and the speed in pixels per second
    [pitch_speed * display.width] is positive and finite, the arrival time
    is not negative (and not NaN). *)
Theorem arrivalTime_nonneg (b : RequestBall) :
  valid (total_distance b) = true -> is_finite (total_distance b) = true ->
  valid (distance_travelled b) = true ->
  nonneg (distance_travelled b) = true ->
  (distance_travelled b <=? total_distance b)%f32 = true ->
  measurable (pitch_speed env * of_Z (display_width env))%f32 = true ->
  nonneg (arrivalTime env b) = true.
Proof.
  intros Vt Ft Vd Pd L M. unfold measurable in M.
  apply andb_true_iff in M as [M F]. apply andb_true_iff in M as [_ P].
  unfold arrivalTime. apply div_nonneg; [|assumption|assumption].
  now apply sub_nonneg.
Qed.

End Arrival.

Lemma arrivalTime_nonneg_witness :
  nonneg (arrivalTime scene_env flat_ball_moving) = true.
Proof.
  apply (@arrivalTime_nonneg scene_env flat_ball_moving); reflexivity.
Defined.

(** * The request detail *)

Unset Implicit Arguments.
Local Open Scope Z_scope.

Lemma size_of_spaces (n : nat) : size_of (spaces n) = Z.of_nat n.
Proof. unfold size_of, spaces. now rewrite repeat_length. Qed.

Lemma size_of_nonneg (s : str) : 0 <= size_of s.
Proof. unfold size_of. lia. Qed.

Lemma uint32_small (z : Z) : 0 <= z < 4294967296 -> uint32 z = z.
Proof. intros H. unfold uint32. now apply Z.mod_small. Qed.

Lemma int32_small (z : Z) : -2147483648 <= z < 2147483648 -> int32 z = z.
Proof. intros H. unfold int32. rewrite Z.mod_small; lia. Qed.

Lemma skipn_all_Z (value : str) (i : Z) :
  size_of value <= i -> skipn (Z.to_nat i) value = [].
Proof. intros H. apply skipn_all2. unfold size_of in H. lia. Qed.

Lemma chunk_split (value : str) (i M : Z) :
  0 <= i -> 0 <= M ->
  substr value i M ++ skipn (Z.to_nat (i + M)) value
  = skipn (Z.to_nat i) value.
Proof.
  intros Hi HM. unfold substr.
  replace (Z.to_nat (i + M)) with (Z.to_nat M + Z.to_nat i)%nat by lia.
  rewrite <- skipn_skipn. apply firstn_skipn.
Qed.

Lemma chunk_length (value : str) (i M : Z) :
  0 <= i -> 1 <= M -> i < size_of value ->
  (1 <= List.length (substr value i M) <= Z.to_nat M)%nat.
Proof.
  intros Hi HM Hn. unfold substr, size_of in *.
  rewrite length_firstn, length_skipn. lia.
Qed.

(** The inner loop with a positive chunk length [M]: it ends within
    [size - i] iterations, every line it adds is the padding followed by
    between 1 and [M] characters, and the lines carry the rest of the
    value. *)
Lemma overflow_lines_ok (fuel : nat) (padding value : str) (M : Z) :
  1 <= M -> size_of value + M <= 4294967296 ->
  forall (i : Z) (content : list str),
    0 <= i < size_of value + M ->
    (Z.to_nat (size_of value - i) <= fuel)%nat ->
    exists ls,
      overflow_lines fuel padding value M i content = Some (content ++ ls) /\
      Forall (fun l => (List.length padding < List.length l
                        <= List.length padding + Z.to_nat M)%nat) ls /\
      concat (map (skipn (List.length padding)) ls)
      = skipn (Z.to_nat i) value.
Proof.
  intros HM Hn. induction fuel as [|fuel IH]; intros i content Hi Hf.
  - exists []. cbn [overflow_lines].
    destruct (i <? size_of value) eqn:E; [apply Z.ltb_lt in E; lia|].
    apply Z.ltb_ge in E. rewrite app_nil_r, skipn_all_Z by assumption.
    now repeat split.
  - cbn [overflow_lines].
    destruct (i <? size_of value) eqn:E.
    + apply Z.ltb_lt in E. rewrite uint32_small by lia.
      destruct (IH (i + M) (content ++ [padding ++ substr value i M]))
        as (ls & H1 & H2 & H3); [lia | lia |].
      exists ((padding ++ substr value i M) :: ls). repeat split.
      * rewrite H1, <- app_assoc. reflexivity.
      * constructor; [|exact H2].
        pose proof (chunk_length value i M ltac:(lia) HM E).
        rewrite length_app. lia.
      * cbn [map concat]. rewrite H3.
        rewrite skipn_app, skipn_all, Nat.sub_diag. cbn [skipn app].
        apply chunk_split; lia.
    + exists []. apply Z.ltb_ge in E.
      rewrite app_nil_r, skipn_all_Z by assumption. now repeat split.
Qed.

(** With a chunk length of 0 the inner loop does not end on a non-empty
    value. *)
Lemma overflow_lines_stuck (fuel : nat) (padding value : str)
      (content : list str) :
  value <> [] -> overflow_lines fuel padding value 0 0 content = None.
Proof.
  intros Hv. revert content. induction fuel as [|fuel IH]; intros content;
    cbn [overflow_lines];
    (destruct (0 <? size_of value) eqn:E;
     [|apply Z.ltb_ge in E; destruct value; [congruence|];
       unfold size_of in E; cbn [List.length] in E; lia]).
  - reflexivity.
  - change (uint32 (0 + 0)) with 0. apply IH.
Qed.

Section RequestDetailFacts.

Variable display_fields : list str.
Variable default_fields : list str.
Variable getFieldTitle : str -> str.
Variable getValue : str -> str.

Lemma longest_title_acc (fields : list str) (acc : Z) :
  acc <= fold_left (fun longest field =>
                      Z.max longest (size_of (getFieldTitle field)))
                   fields acc /\
  forall f, In f fields ->
            size_of (getFieldTitle f)
            <= fold_left (fun longest field =>
                            Z.max longest (size_of (getFieldTitle field)))
                         fields acc.
Proof.
  revert acc. induction fields as [|a l IH]; intros acc; cbn [fold_left].
  - split; [lia | intros f []].
  - destruct (IH (Z.max acc (size_of (getFieldTitle a)))) as [H1 H2].
    split; [lia|]. intros f [<-|Hf]; [lia | now apply H2].
Qed.

Lemma title_le_longest (fields : list str) (f : str) :
  In f fields ->
  size_of (getFieldTitle f) <= longest_title getFieldTitle fields.
Proof. intros H. now apply (longest_title_acc fields 0). Qed.

Lemma longest_title_nonneg (fields : list str) :
  0 <= longest_title getFieldTitle fields.
Proof. apply (longest_title_acc fields 0). Qed.

(** A title no longer than [longest] is padded to exactly [longest]
    characters. *)
Lemma padded_title_length (longest : Z) (f : str) :
  size_of (getFieldTitle f) <= longest -> longest < 2147483648 ->
  size_of (padded_title getFieldTitle longest f) = longest.
Proof.
  intros H1 H2. unfold padded_title.
  pose proof (size_of_nonneg (getFieldTitle f)) as H0.
  rewrite int32_small by lia.
  destruct (0 <? longest - size_of (getFieldTitle f)) eqn:E.
  - unfold size_of in *. rewrite length_app. unfold spaces.
    rewrite repeat_length. lia.
  - apply Z.ltb_ge in E. lia.
Qed.

(** One field, when the chunk length computed from the longest title is
    positive. *)
Lemma format_field_ok (fuel : nat) (longest : Z) (f : str)
      (content : list str) :
  size_of (getFieldTitle f) <= longest -> longest < 2147483648 ->
  1 <= uint32 (99 - longest) ->
  size_of (getValue f) + uint32 (99 - longest) <= 4294967296 ->
  (List.length (getValue f) <= fuel)%nat ->
  exists ls,
    format_field getFieldTitle getValue fuel longest f content
    = Some (content ++ ls) /\
    Forall (fun l => (Z.to_nat longest + 1 < List.length l
                      <= Z.to_nat longest + 1
                         + Z.to_nat (uint32 (99 - longest)))%nat) ls /\
    concat (map (skipn (Z.to_nat longest + 1)) ls) = getValue f.
Proof.
  intros Ht Hl HM Hv Hf. unfold format_field.
  pose proof (padded_title_length longest f Ht Hl) as HT.
  pose proof (size_of_nonneg (getFieldTitle f)) as H0.
  set (T := padded_title getFieldTitle longest f) in *.
  assert (HTn : List.length T = Z.to_nat longest)
    by (unfold size_of in HT; lia).
  unfold max_value_length_of. rewrite size_of_spaces, HTn.
  replace (100 - Z.of_nat (Z.to_nat longest + 1)) with (99 - longest) by lia.
  set (M := uint32 (99 - longest)) in *.
  destruct (getValue f) as [|a v] eqn:V.
  - exists []. rewrite app_nil_r. now repeat split.
  - set (value := a :: v) in *.
    assert (Hs : 1 <= size_of value)
      by (unfold size_of, value; cbn [List.length]; lia).
    set (padding := spaces (Z.to_nat longest + 1)).
    assert (Hp : List.length padding = (Z.to_nat longest + 1)%nat)
      by (unfold padding, spaces; apply repeat_length).
    destruct (overflow_lines_ok fuel padding value M HM Hv M
                (content ++ [T ++ [space] ++ substr value 0 M]))
      as (ls & H1 & H2 & H3); [lia | unfold size_of in *; lia |].
    exists ((T ++ [space] ++ substr value 0 M) :: ls). repeat split.
    + rewrite H1, <- app_assoc. reflexivity.
    + rewrite Hp in H2. constructor; [|exact H2].
      pose proof (chunk_length value 0 M ltac:(lia) HM ltac:(lia)).
      rewrite !length_app, HTn. cbn [List.length]. lia.
    + cbn [map concat]. rewrite Hp in H3. rewrite H3.
      rewrite app_assoc, skipn_app.
      assert (HL : List.length (T ++ [space]) = (Z.to_nat longest + 1)%nat)
        by (rewrite length_app, HTn; reflexivity).
      rewrite <- HL at 1. rewrite skipn_all, HL, Nat.sub_diag.
      cbn [skipn app].
      exact (chunk_split value 0 M ltac:(lia) ltac:(lia)).
Qed.

Lemma format_fields_ok (fuel : nat) (longest : Z) (fields : list str) :
  longest < 2147483648 -> 1 <= uint32 (99 - longest) ->
  Forall (fun f => size_of (getFieldTitle f) <= longest /\
                   size_of (getValue f) + uint32 (99 - longest)
                   <= 4294967296 /\
                   (List.length (getValue f) <= fuel)%nat) fields ->
  forall content, exists ls,
    format_fields getFieldTitle getValue fuel longest fields content
    = Some (content ++ ls) /\
    Forall (fun l => (Z.to_nat longest + 1 < List.length l
                      <= Z.to_nat longest + 1
                         + Z.to_nat (uint32 (99 - longest)))%nat) ls /\
    concat (map (skipn (Z.to_nat longest + 1)) ls)
    = concat (map getValue fields).
Proof.
  intros Hl HM. induction 1 as [|f fields (H1 & H2 & H3) _ IH];
    intros content.
  - exists []. rewrite app_nil_r. now repeat split.
  - destruct (format_field_ok fuel longest f content H1 Hl HM H2 H3)
      as (l1 & E1 & F1 & C1).
    destruct (IH (content ++ l1)) as (l2 & E2 & F2 & C2).
    exists (l1 ++ l2). cbn [format_fields]. rewrite E1, E2.
    repeat split.
    + now rewrite app_assoc.
    + apply Forall_app. now split.
    + rewrite map_app, concat_app. cbn [map concat].
      exact (f_equal2 (@app Ascii.ascii) C1 C2).
Qed.

(** X13: when the longest title has at most 98 characters (and no value
    has more than 2^32 - 100), formatRequestDetail returns, after at most
    as many iterations of its inner loop as the longest value has
    characters, having appended lines to [content] such that: every line
    has more than [longest + 1] and at most 100 characters, so the text
    area discards nothing; and the lines without their first
    [longest + 1] columns (title or padding, and a space), read in order,
    are the values of the fields in order: no character of a value is lost
    or repeated, and a field with an empty value gives no line. *)
Theorem formatRequestDetail_wraps (fuel : nat) (content : list str) :
  let fields := shown_fields display_fields default_fields in
  let longest := longest_title getFieldTitle fields in
  longest <= 98 ->
  Forall (fun f => size_of (getValue f) <= 4294967196 /\
                   (List.length (getValue f) <= fuel)%nat) fields ->
  exists lines,
    formatRequestDetail display_fields default_fields getFieldTitle getValue
                        fuel content
    = Some (content ++ lines) /\
    Forall (fun l => (Z.to_nat longest + 1 < List.length l <= 100)%nat)
           lines /\
    concat (map (skipn (Z.to_nat longest + 1)) lines)
    = concat (map getValue fields).
Proof.
  intros fields longest HL HV.
  pose proof (longest_title_nonneg fields) as H0.
  fold longest in H0.
  assert (HM : uint32 (99 - longest) = 99 - longest)
    by (apply uint32_small; lia).
  destruct (format_fields_ok fuel longest fields ltac:(lia) ltac:(lia))
    with (content := content) as (ls & E & F & C).
  { apply Forall_forall. intros f Hf.
    rewrite Forall_forall in HV. destruct (HV f Hf) as [V1 V2].
    repeat split; [now apply title_le_longest | lia | exact V2]. }
  exists ls. repeat split; [exact E | | exact C].
  eapply Forall_impl; [|exact F]. cbv beta. intros l Hl.
  rewrite HM in Hl. lia.
Qed.

Lemma format_fields_stuck (fuel : nat) (fields : list str) :
  Forall (fun f => size_of (getFieldTitle f) <= 99) fields ->
  Exists (fun f => getValue f <> []) fields ->
  forall content,
    format_fields getFieldTitle getValue fuel 99 fields content = None.
Proof.
  induction 1 as [|f fields Hf _ IH]; intros Hex content;
    [inversion Hex|].
  cbn [format_fields]. unfold format_field.
  pose proof (padded_title_length 99 f Hf ltac:(lia)) as HT.
  assert (HM : max_value_length_of (padded_title getFieldTitle 99 f) = 0).
  { unfold max_value_length_of. rewrite size_of_spaces.
    unfold size_of in HT.
    replace (100 - Z.of_nat (List.length (padded_title getFieldTitle 99 f)
                             + 1)) with 0 by lia.
    reflexivity. }
  rewrite HM.
  destruct (getValue f) as [|a v] eqn:V.
  - apply IH. inversion Hex as [? ? H|? ? H]; subst; [congruence|exact H].
  - rewrite overflow_lines_stuck; [reflexivity | discriminate].
Qed.

(** X14: when the longest title has exactly 99 characters and some shown
    field has a non-empty value, the chunk length [100 - (99 + 1)] is 0 and
    the inner loop of formatRequestDetail never ends: whatever the number
    of iterations allowed, it is still running. *)
Theorem formatRequestDetail_title_99 (fuel : nat) (content : list str) :
  let fields := shown_fields display_fields default_fields in
  longest_title getFieldTitle fields = 99 ->
  Exists (fun f => getValue f <> []) fields ->
  formatRequestDetail display_fields default_fields getFieldTitle getValue
                      fuel content = None.
Proof.
  intros fields HL Hex. unfold formatRequestDetail. fold fields.
  rewrite HL. apply format_fields_stuck; [|exact Hex].
  apply Forall_forall. intros f Hf. rewrite <- HL.
  now apply title_le_longest.
Qed.

Lemma format_field_long (fuel : nat) (longest : Z) (f : str)
      (content : list str) :
  size_of (getFieldTitle f) <= longest -> 100 <= longest < 2147483648 ->
  size_of (getValue f) <= 2147483648 ->
  format_field getFieldTitle getValue fuel longest f content
  = Some (content
          ++ match getValue f with
             | [] => []
             | v => [padded_title getFieldTitle longest f ++ [space] ++ v]
             end).
Proof.
  intros Ht Hl Hv. unfold format_field.
  pose proof (padded_title_length longest f Ht ltac:(lia)) as HT.
  set (T := padded_title getFieldTitle longest f) in *.
  assert (HM : max_value_length_of T = 4294967395 - longest).
  { unfold max_value_length_of. rewrite size_of_spaces.
    unfold size_of in HT. unfold uint32.
    replace (100 - Z.of_nat (List.length T + 1))
      with ((4294967395 - longest) + (-1) * 4294967296) by lia.
    rewrite Z.mod_add by lia. apply Z.mod_small. lia. }
  rewrite HM.
  destruct (getValue f) as [|a v] eqn:V; [now rewrite app_nil_r|].
  set (value := a :: v) in *.
  assert (S : substr value 0 (4294967395 - longest) = value).
  { unfold substr. cbn [skipn Z.to_nat]. apply firstn_all2.
    unfold size_of in Hv. lia. }
  rewrite S.
  assert (E : (4294967395 - longest <? size_of value) = false)
    by (apply Z.ltb_ge; lia).
  destruct fuel; cbn [overflow_lines]; now rewrite E.
Qed.

(** X15: when the longest title has 100 characters or more (and fewer
    than 2^31, no value having more than 2^31), the chunk length
    [100 - (longest + 1)] wraps around as an unsigned int to more than
    2^31, so no value is wrapped: formatRequestDetail appends, for each
    field with a non-empty value, the one line "padded title, space,
    value", and every such line is longer than the 100 characters the text
    area keeps. *)
Theorem formatRequestDetail_long_titles (fuel : nat) (content : list str) :
  let fields := shown_fields display_fields default_fields in
  let longest := longest_title getFieldTitle fields in
  100 <= longest < 2147483648 ->
  Forall (fun f => size_of (getValue f) <= 2147483648) fields ->
  let lines :=
    flat_map (fun f => match getValue f with
                       | [] => []
                       | v => [padded_title getFieldTitle longest f
                               ++ [space] ++ v]
                       end) fields in
  formatRequestDetail display_fields default_fields getFieldTitle getValue
                      fuel content
  = Some (content ++ lines) /\
  Forall (fun l => (100 < List.length l)%nat) lines.
Proof.
  intros fields longest HL HV lines. unfold formatRequestDetail.
  fold fields. fold longest.
  assert (HT : Forall (fun f => size_of (getFieldTitle f) <= longest) fields).
  { apply Forall_forall. intros f Hf.
    now apply title_le_longest. }
  subst lines. clearbody longest. clearbody fields. split.
  - revert content. induction fields as [|f l IH]; intros content.
    + cbn. now rewrite app_nil_r.
    + inversion HV as [|? ? V1 V2]; inversion HT as [|? ? T1 T2]; subst.
      cbn [format_fields flat_map].
      rewrite format_field_long by assumption.
      rewrite (IH V2 T2). now rewrite app_assoc.
  - induction fields as [|f l IH]; [constructor|].
    inversion HV as [|? ? V1 V2]; inversion HT as [|? ? T1 T2]; subst.
    cbn [flat_map]. apply Forall_app. split; [|now apply IH].
    pose proof (padded_title_length longest f T1 ltac:(lia)) as HP.
    destruct (getValue f) as [|a v]; constructor; [|constructor].
    rewrite !length_app. unfold size_of in HP. cbn [List.length]. lia.
Qed.

End RequestDetailFacts.

Lemma formatRequestDetail_wraps_witness :
  exists lines,
    formatRequestDetail Sample.fields [] Sample.title Sample.value 250 []
    = Some ([] ++ lines) /\
    Forall (fun l => (Z.to_nat
                        (longest_title Sample.title
                           (shown_fields Sample.fields [])) + 1
                      < List.length l <= 100)%nat) lines /\
    concat (map (skipn (Z.to_nat
                          (longest_title Sample.title
                             (shown_fields Sample.fields [])) + 1)) lines)
    = concat (map Sample.value (shown_fields Sample.fields [])).
Proof.
  apply (formatRequestDetail_wraps Sample.fields [] Sample.title
           Sample.value 250 []).
  - vm_compute. discriminate.
  - repeat constructor; vm_compute; try discriminate;
      repeat constructor.
Defined.

Lemma formatRequestDetail_title_99_witness :
  formatRequestDetail Sample.fields [] Sample.title_99 Sample.value 1000 []
  = None.
Proof.
  apply (formatRequestDetail_title_99 Sample.fields [] Sample.title_99
           Sample.value 1000 []).
  - reflexivity.
  - constructor. discriminate.
Defined.

Lemma formatRequestDetail_long_titles_witness :
  formatRequestDetail [] Sample.fields Sample.title_120 Sample.value 0 []
  = Some ([] ++ flat_map
                  (fun f => match Sample.value f with
                            | [] => []
                            | v => [padded_title Sample.title_120
                                      (longest_title Sample.title_120
                                         (shown_fields [] Sample.fields)) f
                                    ++ [space] ++ v]
                            end) (shown_fields [] Sample.fields)) /\
  Forall (fun l => (100 < List.length l)%nat)
         (flat_map
            (fun f => match Sample.value f with
                      | [] => []
                      | v => [padded_title Sample.title_120
                                (longest_title Sample.title_120
                                   (shown_fields [] Sample.fields)) f
                              ++ [space] ++ v]
                      end) (shown_fields [] Sample.fields)).
Proof.
  apply (formatRequestDetail_long_titles [] Sample.fields Sample.title_120
           Sample.value 0 []).
  - split; vm_compute; [discriminate | reflexivity].
  - repeat constructor; vm_compute; discriminate.
Defined.

Local Close Scope Z_scope.

(** * The hit test of [mouseOver] *)

Lemma sub_self (x : float) : is_finite x = true -> (x - x)%f32 = zero.
Proof.
  destruct x as [s|s| |s m e]; try discriminate; intros _.
  - now destruct s.
  - unfold sub. cbn [SFsub]. now rewrite Z.sub_diag.
Qed.

Lemma sub_nan_l (x y : float) : is_nan x = true -> is_nan (x - y)%f32 = true.
Proof. destruct x; try discriminate. reflexivity. Qed.

Lemma sub_nan_r (x y : float) : is_nan y = true -> is_nan (x - y)%f32 = true.
Proof. destruct y; try discriminate. now destruct x. Qed.

Lemma square_nan (x : float) : is_nan x = true -> is_nan (x * x)%f32 = true.
Proof. destruct x; try discriminate. reflexivity. Qed.

Lemma add_nan_l (x y : float) : is_nan x = true -> is_nan (x + y)%f32 = true.
Proof. destruct x; try discriminate. reflexivity. Qed.

Lemma add_nan_r (x y : float) : is_nan y = true -> is_nan (x + y)%f32 = true.
Proof. destruct y; try discriminate. now destruct x. Qed.

Section MouseOver.

Variable display_fields : list str.
Variable default_fields : list str.
Variable getFieldTitle : str -> str.
Variable getValue : str -> str.

(** X16: a mouse exactly on a ball (finite coordinates) is over it: the
    squared distance is 0 < 36, and mouseOver hands the text area the lines
    of formatRequestDetail (started from an empty vector), then the mouse
    position, then the ball's colour, and returns true; when a coordinate
    of the ball or of the mouse is NaN the test fails: the text area is
    left alone and the result is false. *)
Theorem mouseOver_hit_test (colour : vec3) (fuel : nat) (mouse : vec2)
        (b : RequestBall) :
  (is_finite (vx mouse) = true -> is_finite (vy mouse) = true ->
   pos b = mouse ->
   mouseOver display_fields default_fields getFieldTitle getValue
             colour fuel mouse b
   = option_map (fun content =>
                   ([SetText content; SetPos mouse; SetColour colour], true))
                (formatRequestDetail display_fields default_fields
                                     getFieldTitle getValue fuel [])) /\
  (is_nan (vx (pos b)) = true \/ is_nan (vy (pos b)) = true \/
   is_nan (vx mouse) = true \/ is_nan (vy mouse) = true ->
   mouseOver display_fields default_fields getFieldTitle getValue
             colour fuel mouse b
   = Some ([], false)).
Proof.
  split.
  - intros Fx Fy E. unfold mouseOver, vsub, dot. rewrite E. cbn [vx vy].
    rewrite (sub_self _ Fx), (sub_self _ Fy).
    change (zero * zero + zero * zero <? thirty_six)%f32 with true.
    cbv iota. now destruct (formatRequestDetail _ _ _ _ _ _).
  - intros H. unfold mouseOver, vsub, dot. cbn [vx vy].
    rewrite ltb_nan; [reflexivity|].
    destruct H as [H|[H|[H|H]]].
    + apply add_nan_l, square_nan, sub_nan_l, H.
    + apply add_nan_r, square_nan, sub_nan_l, H.
    + apply add_nan_l, square_nan, sub_nan_r, H.
    + apply add_nan_r, square_nan, sub_nan_r, H.
Qed.

End MouseOver.

Lemma mouseOver_hit_test_witness :
  mouseOver Sample.fields [] Sample.title Sample.value white 250
            (pos flat_ball_moving) flat_ball_moving
  = option_map (fun content =>
                  ([SetText content; SetPos (pos flat_ball_moving);
                    SetColour white], true))
               (formatRequestDetail Sample.fields [] Sample.title
                                    Sample.value 250 []) /\
  mouseOver Sample.fields [] Sample.title Sample.value white 250
            (mkvec2 nan zero) flat_ball_moving
  = Some ([], false).
Proof.
  split.
  - apply (proj1 (mouseOver_hit_test Sample.fields [] Sample.title
                    Sample.value white 250 (pos flat_ball_moving)
                    flat_ball_moving)); reflexivity.
  - apply (proj2 (mouseOver_hit_test Sample.fields [] Sample.title
                    Sample.value white 250 (mkvec2 nan zero)
                    flat_ball_moving)).
    right. right. left. reflexivity.
Defined.

(** * When the response code is drawn *)

Local Open Scope Z_scope.

(** The double of a float that is at least 1 is not below 1. *)
Lemma double_ge_one (p : float) :
  valid p = true -> (one <=? p)%f32 = true -> (p * two <? one)%f32 = false.
Proof.
  intros V L.
  destruct p as [s|[]| |[] m e]; try discriminate; try reflexivity.
  change one with (S754_finite false 8388608 (-23)) in L.
  pose proof (leb_finite_cases _ _ _ _ L) as Hc.
  destruct (canonical_digits _ _ V) as (_ & _ & Dn).
  unfold mul, two. cbn [SFmul xorb].
  pose proof (digits_mul m 8388608) as Dm.
  change (digits 8388608) with 24 in Dm.
  pose proof (digits_pos m) as Pm.
  assert (He : e + -22 <= fexp prec emax (Zdigits2 (Zpos (m * 8388608))
                                          + (e + -22)))
    by (cbn [Zdigits2]; fold (digits (m * 8388608)); rewrite fexp_eq; lia).
  rewrite bra_rounded by (try exact He; lia).
  destruct (rounded_ok (Zpos (m * 8388608)) (e + -22) loc_Exact
              ltac:(lia) He) as [_ X _ _ _ _ P _ _].
  cbn [Zdigits2] in X, P. fold (digits (m * 8388608)) in X, P.
  rewrite fexp_eq in X.
  assert (Hlow : -23 < snd (rounded (Zpos (m * 8388608)) (e + -22)
                                    loc_Exact)).
  { destruct Hc as [Hc|[Hc _]]; [|subst e; cbv in V; lia ..]; lia. }
  specialize (P ltac:(lia)). unfold fit.
  destruct (fst (rounded (Zpos (m * 8388608)) (e + -22) loc_Exact))
    as [|q|q]; try lia.
  destruct (_ <=? emax - prec); [|reflexivity].
  unfold ltb, SFltb, one. cbn [SFcompare].
  destruct (Z.compare_spec
              (snd (rounded (Zpos (m * 8388608)) (e + -22) loc_Exact))
              (-23)); try lia; reflexivity.
Qed.

(** Every quotient is a binary32 value. *)
Lemma div_valid (x y : float) : valid (x / y)%f32 = true.
Proof.
  destruct x as [sx|sx| |sx mx ex], y as [sy|sy| |sy my ey];
    try reflexivity.
  unfold div. cbn [SFdiv].
  destruct (SFdiv_core_binary_eq mx ex my ey) as [C B]. cbv zeta in C, B.
  rewrite C. apply bra_valid; [|exact B].
  pose proof (Z.le_min_r
                (fexp prec emax (digits mx + ex - (digits my + ey)))
                (ex - ey)).
  apply Z.div_pos; [|lia].
  apply Z.mul_nonneg_nonneg; [lia | apply Z.pow_nonneg; lia].
Qed.

Local Close Scope Z_scope.

(** X17: the response code is drawn only while twice the progress is
    below 1, with alpha [1 - 2 * progress] above 0.001, at
    [dir * (progress * 100) + (dest.x - 45, dest.y)]; it is never drawn for
    a NaN progress (a path of length zero): there [std::min(1, NaN)] is 1
    and alpha is 0. *)
Theorem drawResponseCode_shown (response_colour : vec3) (response_code : str)
        (b : RequestBall) :
  let prog := getProgress b in
  let alpha := (one - prog * two)%f32 in
  (drawResponseCode response_colour response_code b <> [] ->
   (prog * two <? one)%f32 = true /\ (alpha <=? milli)%f32 = false /\
   drawResponseCode response_colour response_code b
   = [FontSetColour (mkvec4 (v3x response_colour) (v3y response_colour)
                            (v3z response_colour) alpha);
      FontDraw (vx (dir b) * (prog * hundred) + (vx (dest b) - forty_five))%f32
               (vy (dir b) * (prog * hundred) + vy (dest b))%f32
               response_code]) /\
  (is_nan prog = true ->
   drawResponseCode response_colour response_code b = []).
Proof.
  cbn zeta. unfold drawResponseCode, fmin. split.
  - destruct (getProgress b * two <? one)%f32 eqn:L.
    + destruct (one - getProgress b * two <=? milli)%f32 eqn:A;
        [congruence|]. intros _. now repeat split.
    + change (one - one <=? milli)%f32 with true. congruence.
  - intros N.
    rewrite ltb_nan by (destruct (getProgress b); now try discriminate).
    reflexivity.
Qed.

(** X18: once the distance travelled has reached a positive finite total
    distance (in particular on a finished ball, and on the tick before the
    bounce), the response code is not drawn any more: the progress is at
    least 1, so twice the progress is not below 1 and alpha is 0. *)
Theorem drawResponseCode_at_end (response_colour : vec3)
        (response_code : str) (b : RequestBall) :
  valid (distance_travelled b) = true ->
  measurable (total_distance b) = true ->
  (distance_travelled b >=? total_distance b)%f32 = true ->
  drawResponseCode response_colour response_code b = [].
Proof.
  intros V M G.
  pose proof (progress_at_least_one _ _ V G M) as P.
  unfold drawResponseCode, fmin, getProgress.
  rewrite (double_ge_one _ (div_valid _ _) P). reflexivity.
Qed.

Lemma drawResponseCode_shown_witness :
  ((getProgress flat_ball_moving * two <? one)%f32 = true /\
   (one - getProgress flat_ball_moving * two <=? milli)%f32 = false /\
   drawResponseCode white Sample.response_code flat_ball_moving
   = [FontSetColour (mkvec4 (v3x white) (v3y white) (v3z white)
                            (one - getProgress flat_ball_moving * two)%f32);
      FontDraw (vx (dir flat_ball_moving)
                * (getProgress flat_ball_moving * hundred)
                + (vx (dest flat_ball_moving) - forty_five))%f32
               (vy (dir flat_ball_moving)
                * (getProgress flat_ball_moving * hundred)
                + vy (dest flat_ball_moving))%f32
               Sample.response_code]) /\
  drawResponseCode white Sample.response_code still_ball = [].
Proof.
  split.
  - apply (proj1 (drawResponseCode_shown white Sample.response_code
                    flat_ball_moving)).
    vm_compute. discriminate.
  - apply (proj2 (drawResponseCode_shown white Sample.response_code
                    still_ball)).
    reflexivity.
Defined.

Lemma drawResponseCode_at_end_witness :
  drawResponseCode white Sample.response_code flat_ball_finished = [].
Proof.
  apply (drawResponseCode_at_end white Sample.response_code
           flat_ball_finished); reflexivity.
Defined.

Set Implicit Arguments.
